(** * Energy: the animation-flow node of [packages/animation/src/Energy/Energy.js]

    A shallow embedding of the [Component] class: its duration resolver,
    its activation evaluator, the four-state flow machine and the
    single-slot timer scheduler, followed by the properties established
    about them.

    JavaScript objects are finite maps from property names to values,
    object spread is a right-biased union, [undefined] props are [None],
    and numbers of milliseconds are integers.  The host is an explicit
    part of the state: the pending timers, the handle counter and the
    trace of the calls the component makes to its environment.  The
    values of [useAnimation] and [useEnergy] arrive as the props
    [animationContext] and [parentEnergyContext], as the [Energy] wrapper
    passes them. *)

From stdpp Require Import gmap strings list fin_maps.
From Stdlib Require Import ZArith.

(** ** JavaScript values and objects *)

Inductive jsval :=
| VUndefined
| VBool (b : bool)
| VNum (n : Z)
| VStr (s : string).

#[global] Instance jsval_eq_dec : EqDecision jsval.
Proof. solve_decision. Defined.

(** [ToBoolean], as used by [if (x)], [!!x] and [x || y]. *)
Definition truthy (v : jsval) : bool :=
  match v with
  | VUndefined => false
  | VBool b => b
  | VNum n => negb (n =? 0)%Z
  | VStr s => negb (String.eqb s "")
  end.

(** [a || b] *)
Definition js_or (a b : jsval) : jsval := if truthy a then a else b.

(** An object: own enumerable properties by name. *)
Abbreviation obj := (gmap string jsval).

(** [o.k]: a missing property reads as [undefined]. *)
Definition get (o : obj) (k : string) : jsval := default VUndefined (o !! k).

(** One step of an object literal [{ ...acc, ...src }]: the properties of
    [src] are copied over those collected so far; spreading [undefined] or
    [null] copies nothing. *)
Definition spread (acc : obj) (src : option obj) : obj := default ∅ src ∪ acc.

(** A prop that is tested for truthiness and may be left out. *)
Definition truthy_prop (b : option bool) : bool := default false b.

(** ** Exceptions *)

Inductive Exception := TypeError.

Inductive result (A : Type) :=
| Ok (a : A)
| Throw (e : Exception).
Arguments Ok {A} a.
Arguments Throw {A} e.

#[global] Instance result_bind : MBind result := λ A B k r,
  match r with
  | Ok a => k a
  | Throw e => Throw e
  end.

(** ** Flow values *)

Inductive FlowValue := ENTERING | ENTERED | EXITING | EXITED.

#[global] Instance FlowValue_eq_dec : EqDecision FlowValue.
Proof. solve_decision. Defined.

(** The string constants of lines 7 to 10. *)
Definition flow_string (fv : FlowValue) : string :=
  match fv with
  | ENTERING => "entering"
  | ENTERED => "entered"
  | EXITING => "exiting"
  | EXITED => "exited"
  end.

(** ** Props *)

(** [duration]: a number or a shape of optional numbers. *)
Inductive DurationValue :=
| DurNumber (n : Z)
| DurShape (o : obj).

(** The value of the animation context, as far as the component reads it. *)
Module AnimationContext.
Record t := make { animate : option bool; duration : option obj }.
End AnimationContext.

(** What a node publishes to its descendants.  The accessor members are
    the node's own functions; descendants of this file read only [flow]. *)
Record EnergyInterface := { flow : obj }.

Record Props := {
  animate : option bool;
  root : option bool;
  activate : option bool;
  duration : option DurationValue;
  merge : option bool;
  (** whether a callback is supplied *)
  onActivate : bool;
  animationContext : AnimationContext.t;
  parentEnergyContext : option EnergyInterface
}.

(** ** The component instance *)

Record State := { flowValue : FlowValue; energyInterface : EnergyInterface }.

Record Component := {
  props : Props;
  state : State;
  flowHasEntered : bool;
  flowHasExited : bool;
  activated : bool;
  customDuration : option obj;
  (** the handle last returned by [setTimeout], [null] before the first *)
  scheduleTimeout : option nat
}.

(** *** Field updates *)

Definition set_props (p : Props) (c : Component) : Component :=
  {| props := p; state := state c;
     flowHasEntered := flowHasEntered c; flowHasExited := flowHasExited c;
     activated := activated c; customDuration := customDuration c;
     scheduleTimeout := scheduleTimeout c |}.

Definition set_state (s : State) (c : Component) : Component :=
  {| props := props c; state := s;
     flowHasEntered := flowHasEntered c; flowHasExited := flowHasExited c;
     activated := activated c; customDuration := customDuration c;
     scheduleTimeout := scheduleTimeout c |}.

Definition set_flowHasEntered (b : bool) (c : Component) : Component :=
  {| props := props c; state := state c;
     flowHasEntered := b; flowHasExited := flowHasExited c;
     activated := activated c; customDuration := customDuration c;
     scheduleTimeout := scheduleTimeout c |}.

Definition set_flowHasExited (b : bool) (c : Component) : Component :=
  {| props := props c; state := state c;
     flowHasEntered := flowHasEntered c; flowHasExited := b;
     activated := activated c; customDuration := customDuration c;
     scheduleTimeout := scheduleTimeout c |}.

Definition set_activated (b : bool) (c : Component) : Component :=
  {| props := props c; state := state c;
     flowHasEntered := flowHasEntered c; flowHasExited := flowHasExited c;
     activated := b; customDuration := customDuration c;
     scheduleTimeout := scheduleTimeout c |}.

Definition set_customDuration (d : option obj) (c : Component) : Component :=
  {| props := props c; state := state c;
     flowHasEntered := flowHasEntered c; flowHasExited := flowHasExited c;
     activated := activated c; customDuration := d;
     scheduleTimeout := scheduleTimeout c |}.

Definition set_scheduleTimeout (h : option nat) (c : Component) : Component :=
  {| props := props c; state := state c;
     flowHasEntered := flowHasEntered c; flowHasExited := flowHasExited c;
     activated := activated c; customDuration := customDuration c;
     scheduleTimeout := h |}.

(** ** Pure readers of the instance

    [isAnimate], [isRoot] and [isActivated] read nothing of the instance
    but [this.props], so they take the props. *)

(** [getEnergyInterface], lines 114 to 126. *)
Definition getEnergyInterface (flowValue : FlowValue) : EnergyInterface :=
  let flow : obj :=
    {[ "value" := VStr (flow_string flowValue);
       flow_string flowValue := VBool true ]} in
  {| flow := flow |}.

(** [isAnimate], lines 128 to 142. *)
Definition isAnimate (props : Props) : bool :=
  let animate0 := true in
  let providedAnimate := AnimationContext.animate (animationContext props) in
  let animate1 :=
    match providedAnimate with Some a => a | None => animate0 end in
  let propAnimate := animate props in
  let animate2 :=
    match propAnimate with Some a => a | None => animate1 end in
  animate2.

(** [isRoot], lines 144 to 156. *)
Definition isRoot (props : Props) : bool :=
  let root0 := true in
  let root1 :=
    match parentEnergyContext props with
    | Some _ => false
    | None => root0
    end in
  let root2 :=
    match root props with Some r => r | None => root1 end in
  root2.

(** [getDuration], lines 158 to 176. *)
Definition defaultDuration : obj :=
  {[ "enter" := VNum 200; "exit" := VNum 200; "delay" := VNum 0 ]}.

(** [typeof v === 'number' ? { enter: v, exit: v } : v], the normalisation
    shared by [getDuration] and [updateDuration]. *)
Definition shapeOf (v : option DurationValue) : option obj :=
  match v with
  | Some (DurNumber n) => Some {[ "enter" := VNum n; "exit" := VNum n ]}
  | Some (DurShape o) => Some o
  | None => None
  end.

Definition getDuration (this : Component) : obj :=
  let providedDuration := AnimationContext.duration (animationContext (props this)) in
  let propValue := duration (props this) in
  let propDuration := shapeOf propValue in
  let duration :=
    spread (spread (spread (spread ∅ (Some defaultDuration))
                      providedDuration) propDuration) (customDuration this) in
  duration.

(** [updateDuration], lines 188 to 193. *)
Definition updateDuration (duration : option DurationValue) (this : Component)
  : Component :=
  let customDuration := shapeOf duration in
  set_customDuration customDuration this.

(** [hasEntered] and [hasExited], lines 195 to 201. *)
Definition hasEntered (this : Component) : bool := flowHasEntered this.
Definition hasExited (this : Component) : bool := flowHasExited this.

(** [isActivated], lines 203 to 220.  Reading [.flow] of a missing parent
    context is a [TypeError]. *)
Definition isActivated (props : Props) : result bool :=
  if isRoot props then
    match activate props with
    | Some a => Ok a
    | None => Ok true
    end
  else
    match parentEnergyContext props with
    | None => Throw TypeError
    | Some parent =>
        let parentFlow := flow parent in
        if truthy_prop (merge props) then
          Ok (truthy (js_or (get parentFlow "entering")
                            (get parentFlow "entered")))
        else
          Ok (truthy (get parentFlow "entered"))
    end.

(** [getInitialState], lines 43 to 52. *)
Definition getInitialState (props : Props) : State :=
  let flowValue := if isAnimate props then EXITED else ENTERED in
  let energyInterface := getEnergyInterface flowValue in
  {| flowValue := flowValue; energyInterface := energyInterface |}.

(** [constructor], lines 32 to 41. *)
Definition constructor (props : Props) : Component :=
  {| props := props;
     state := getInitialState props;
     flowHasEntered := false;
     flowHasExited := false;
     activated := false;
     customDuration := None;
     scheduleTimeout := None |}.

(** ** The host: timers and user callbacks

    The closures handed to [setTimeout] are the four arrow functions of
    [enter] and [exit]; the two inner ones differ only in the flow value
    they set. *)

Inductive Callback :=
| EnterStart            (* the arrow function of lines 232 to 237 *)
| ExitStart             (* the arrow function of lines 247 to 252 *)
| FlowTo (fv : FlowValue). (* [() => this.setFlowValue(fv)] *)

(** The calls the component makes to its environment (the user's
    [onActivate], the framework's [setState], the timer functions), in
    order. *)
Inductive Effect :=
| CallOnActivate (activated : bool)
| CallSetState (flowValue : FlowValue)
| CallClearTimeout (handle : option nat)
| CallSetTimeout (handle : nat) (time : jsval) (callback : Callback).

#[global] Instance Callback_eq_dec : EqDecision Callback.
Proof. solve_decision. Defined.
#[global] Instance Effect_eq_dec : EqDecision Effect.
Proof. solve_decision. Defined.

Record Host := {
  (** pending timers by handle *)
  timers : gmap nat (jsval * Callback);
  (** the handle the next [setTimeout] returns *)
  nextTimer : nat;
  trace : list Effect
}.

Record World := { node : Component; host : Host }.

Definition on_node (f : Component → Component) (w : World) : World :=
  {| node := f (node w); host := host w |}.

Definition on_host (f : Host → Host) (w : World) : World :=
  {| node := node w; host := f (host w) |}.

Definition emit (e : Effect) (h : Host) : Host :=
  {| timers := timers h; nextTimer := nextTimer h; trace := trace h ++ [e] |}.

(** [clearTimeout(handle)]: a handle that is [null], fired or cleared
    already is ignored. *)
Definition clearTimeout (handle : option nat) (h : Host) : Host :=
  let h := emit (CallClearTimeout handle) h in
  match handle with
  | Some id =>
      {| timers := delete id (timers h); nextTimer := nextTimer h;
         trace := trace h |}
  | None => h
  end.

(** [setTimeout(callback, time)] returns a fresh handle. *)
Definition setTimeout (callback : Callback) (time : jsval) (h : Host)
  : nat * Host :=
  let id := nextTimer h in
  let h := emit (CallSetTimeout id time callback) h in
  (id, {| timers := <[id := (time, callback)]> (timers h);
          nextTimer := S id; trace := trace h |}).

(** ** The scheduler, lines 255 to 262 *)

Definition unschedule (w : World) : World :=
  on_host (clearTimeout (scheduleTimeout (node w))) w.

Definition schedule (time : jsval) (callback : Callback) (w : World) : World :=
  let w := unschedule w in
  let '(handle, h) := setTimeout callback time (host w) in
  {| node := set_scheduleTimeout (Some handle) (node w); host := h |}.

(** ** The flow machine *)

(** [enter], lines 222 to 238. *)
Definition enter (w : World) : World :=
  let flowValue := flowValue (state (node w)) in
  if decide (flowValue = ENTERING ∨ flowValue = ENTERED) then w
  else
    let duration := getDuration (node w) in
    let delay :=
      if decide (flowValue = EXITED) then get duration "delay" else VNum 0 in
    schedule delay EnterStart w.

(** [exit], lines 240 to 253. *)
Definition exit (w : World) : World :=
  let flowValue := flowValue (state (node w)) in
  if decide (flowValue = EXITING ∨ flowValue = EXITED) then w
  else schedule (VNum 0) ExitStart w.

(** [componentDidMount], lines 54 to 61. *)
Definition componentDidMount (w : World) : result World :=
  let animate := isAnimate (props (node w)) in
  activated ← isActivated (props (node w));
  if animate && activated then Ok (enter w) else Ok w.

(** [componentDidUpdate], lines 63 to 81.  The user's [onActivate] is
    opaque; its invocation is recorded in the trace. *)
Definition componentDidUpdate (w : World) : result World :=
  let animate := isAnimate (props (node w)) in
  now ← isActivated (props (node w));
  if animate && negb (eqb now (activated (node w))) then
    let w := on_node (set_activated now) w in
    let w :=
      if onActivate (props (node w))
      then on_host (emit (CallOnActivate now)) w
      else w in
    if now then Ok (enter w) else Ok (exit w)
  else Ok w.

(** [componentWillUnmount], lines 83 to 85. *)
Definition componentWillUnmount (w : World) : World := unschedule w.

(** [setFlowValue], lines 95 to 108.  [setState] is called from a timer
    callback, outside any batch of the framework, so the update is
    committed at once: the state is replaced, the component re-renders
    and [componentDidUpdate] runs, and then the callback given to
    [setState] records the markers. *)
Definition setFlowValue (flowValue : FlowValue) (w : World) : result World :=
  let energyInterface := getEnergyInterface flowValue in
  let w := on_host (emit (CallSetState flowValue)) w in
  let w :=
    on_node (set_state {| flowValue := flowValue;
                          energyInterface := energyInterface |}) w in
  w ← componentDidUpdate w;
  Ok (if decide (flowValue = ENTERED) then on_node (set_flowHasEntered true) w
      else if decide (flowValue = EXITED) then on_node (set_flowHasExited true) w
      else w).

(** The bodies of the scheduled closures. *)
Definition call (callback : Callback) (w : World) : result World :=
  match callback with
  | EnterStart =>
      let duration := getDuration (node w) in
      w ← setFlowValue ENTERING w;
      Ok (schedule (get duration "enter") (FlowTo ENTERED) w)
  | ExitStart =>
      let duration := getDuration (node w) in
      w ← setFlowValue EXITING w;
      Ok (schedule (get duration "exit") (FlowTo EXITED) w)
  | FlowTo fv => setFlowValue fv w
  end.

(** ** Driving a node *)

(** Creation: the constructor, then [componentDidMount]. *)
Definition mount (props : Props) (h : Host) : result World :=
  componentDidMount {| node := constructor props; host := h |}.

(** A timer comes due: it leaves the pending set and its closure runs.
    A handle that is not pending does nothing. *)
Definition expire (handle : nat) (h : Host) : Host :=
  {| timers := delete handle (timers h); nextTimer := nextTimer h;
     trace := trace h |}.

Definition fire (handle : nat) (w : World) : result World :=
  match timers (host w) !! handle with
  | Some (_, callback) => call callback (on_host (expire handle) w)
  | None => Ok w
  end.

(** What can happen to a mounted node. *)
Inductive Event :=
| Update (props : Props)                   (* re-render with these props *)
| Fire (handle : nat)                      (* a timer comes due *)
| Override (duration : option DurationValue) (* [updateDuration] through a ref *)
| Unmount.

Definition step (ev : Event) (w : World) : result World :=
  match ev with
  | Update p => componentDidUpdate (on_node (set_props p) w)
  | Fire handle => fire handle w
  | Override d => Ok (on_node (updateDuration d) w)
  | Unmount => Ok (componentWillUnmount w)
  end.

Fixpoint steps (evs : list Event) (w : World) : result World :=
  match evs with
  | [] => Ok w
  | ev :: evs => w ← step ev w; steps evs w
  end.

(** A fresh host. *)
Definition idle : Host := {| timers := ∅; nextTimer := 0; trace := [] |}.

(** ** The statements of the specification, in its own words *)

(** What one layer of the duration cascade defines for a field: a bare
    number defines [enter] and [exit] and nothing else, an absent layer
    defines nothing. *)
Definition layer_field (layer : option DurationValue) (k : string)
  : option jsval :=
  match layer with
  | None => None
  | Some (DurNumber n) =>
      if decide (k = "enter" ∨ k = "exit") then Some (VNum n) else None
  | Some (DurShape o) => o !! k
  end.

(** The first of the layers, highest precedence first, that defines [k]. *)
Fixpoint first_defined (layers : list (option DurationValue)) (k : string)
  : option jsval :=
  match layers with
  | [] => None
  | layer :: lower =>
      match layer_field layer k with
      | Some v => Some v
      | None => first_defined lower k
      end
  end.

(** The built-in default of the specification. *)
Definition builtin_default : option DurationValue :=
  Some (DurShape {[ "enter" := VNum 200; "exit" := VNum 200;
                    "delay" := VNum 0 ]}).

Definition resolve (ambient : option obj) (declared override : option DurationValue)
    (k : string) : option jsval :=
  first_defined [override; declared; DurShape <$> ambient; builtin_default] k.

(** Whether animation is enabled: the per-node flag, else the ambient
    flag, else [true]. *)
Definition animation_enabled (props : Props) : bool :=
  default (default true (AnimationContext.animate (animationContext props)))
          (animate props).

(** ** Notions used by the statements *)

(** The pending timers once the one named by the slot is cleared. *)
Definition cleared (slot : option nat) (m : gmap nat (jsval * Callback))
  : gmap nat (jsval * Callback) :=
  match slot with Some id => delete id m | None => m end.

(** The single-slot discipline: a timer is pending only if the slot
    names it. *)
Definition single_slot (w : World) : Prop :=
  map_Forall (λ id _, scheduleTimeout (node w) = Some id) (timers (host w)).

#[global] Instance single_slot_dec (w : World) : Decision (single_slot w).
Proof. unfold single_slot. apply _. Defined.

Definition is_timer_call (e : Effect) : bool :=
  match e with
  | CallClearTimeout _ | CallSetTimeout _ _ _ => true
  | _ => false
  end.

Definition is_onActivate (e : Effect) : bool :=
  match e with CallOnActivate _ => true | _ => false end.

(** How often the user's [onActivate] was invoked. *)
Definition onActivate_calls (tr : list Effect) : nat :=
  length (filter is_onActivate tr).

Definition is_override (ev : Event) : bool :=
  match ev with Override _ => true | _ => false end.

(** The world once an update has recorded the new activation and told
    the user, lines 68 to 72. *)
Definition announced (now : bool) (w : World) : World :=
  let w := on_node (set_activated now) w in
  if onActivate (props (node w))
  then on_host (emit (CallOnActivate now)) w
  else w.

(** The flow values committed through [setState], oldest first. *)
Definition transitions (tr : list Effect) : list FlowValue :=
  omap (λ e, match e with CallSetState fv => Some fv | _ => None end) tr.

(** The activation a node observes with given props ([false] stands in
    where the evaluator throws). *)
Definition observed (p : Props) : bool :=
  match isActivated p with Ok a => a | Throw _ => false end.

(** How often a sequence of observations differs from the one before. *)
Fixpoint changes (previous : bool) (observations : list bool) : nat :=
  match observations with
  | [] => 0
  | a :: rest => (if eqb a previous then 0 else 1) + changes a rest
  end.

(** C4 in the words of the specification, for a node created with [p0]
    on a fresh host and then re-rendered with each of [ps] in turn: the
    callback has been invoked once per change of the observed activation. *)
Definition once_per_change (p0 : Props) (ps : list Props) : Prop :=
  ∀ w, (w ← mount p0 idle; steps (Update <$> ps) w) = Ok w →
       onActivate_calls (trace (host w)) =
         changes (observed p0) (observed <$> ps).

(** The number of invocations the code makes over the same updates, from
    the activation it has recorded. *)
Fixpoint expected_calls (recorded : bool) (ps : list Props) : nat :=
  match ps with
  | [] => 0
  | p :: ps =>
      match isActivated p with
      | Ok now =>
          if isAnimate p && negb (eqb now recorded)
          then (if onActivate p then 1 else 0) + expected_calls now ps
          else expected_calls recorded ps
      | Throw _ => 0
      end
  end.

(** ** Sample nodes *)

Definition no_context : AnimationContext.t := AnimationContext.make None None.

(** A root with every prop left out but the callback. *)
Definition plain_root : Props :=
  {| animate := None; root := None; activate := None; duration := None;
     merge := None; onActivate := true; animationContext := no_context;
     parentEnergyContext := None |}.

(** A node declared non-root that has no parent context. *)
Definition orphan : Props :=
  {| animate := None; root := Some false; activate := None; duration := None;
     merge := None; onActivate := true; animationContext := no_context;
     parentEnergyContext := None |}.

(** A root whose activation is given explicitly. *)
Definition root_with (animate activate : option bool) : Props :=
  {| animate := animate; root := None; activate := activate; duration := None;
     merge := None; onActivate := true; animationContext := no_context;
     parentEnergyContext := None |}.

(** The world a run from creation ends in; the fresh node if it throws. *)
Definition reached (p : Props) (evs : list Event) : World :=
  match (w ← mount p idle; steps evs w) with
  | Ok w => w
  | Throw _ => {| node := constructor p; host := idle |}
  end.

(** A root that entered and was then deactivated: it is EXITING, with the
    transition to EXITED pending. *)
Definition exiting_world : World :=
  reached plain_root
    [Fire 0; Fire 1; Update (root_with None (Some false)); Fire 2].

(** A root created deactivated and then activated with a delay of 300:
    it is EXITED, with the first step of the entry pending. *)
Definition delayed : Props :=
  {| animate := None; root := None; activate := Some true;
     duration := Some (DurShape {[ "delay" := VNum 300 ]});
     merge := None; onActivate := true; animationContext := no_context;
     parentEnergyContext := None |}.

Definition waiting_world : World :=
  reached (root_with None (Some false)) [Update delayed].

(** A root that has entered. *)
Definition entered_world : World := reached plain_root [Fire 0; Fire 1].

(** The world after further events; unchanged if they throw. *)
Definition after (evs : list Event) (w : World) : World :=
  match steps evs w with Ok w' => w' | Throw _ => w end.

(** A root with animation switched off. *)
Definition still (activate : bool) : Props :=
  root_with (Some false) (Some activate).

(** ** The remaining members of the class *)

(** The result of [a + b]: the sum of two numbers as the language adds
    them (in floating point, so it is named and not computed), [NaN],
    or, when an operand is a string, the concatenation of the string
    forms of [a] and [b]. *)
Inductive jssum :=
| SumOf (x y : Z)
| SumNaN
| SumConcat (a b : jsval).

(** [a + b]: a string operand makes it a concatenation; otherwise both
    operands are taken as numbers, [undefined] as NaN, [true] as 1 and
    [false] as 0. *)
Definition js_add (a b : jsval) : jssum :=
  match a, b with
  | VStr _, _ | _, VStr _ => SumConcat a b
  | VUndefined, _ | _, VUndefined => SumNaN
  | VBool x, VBool y => SumOf (Z.b2z x) (Z.b2z y)
  | VBool x, VNum y => SumOf (Z.b2z x) y
  | VNum x, VBool y => SumOf x (Z.b2z y)
  | VNum x, VNum y => SumOf x y
  end.

(** [getDurationIn], lines 178 to 181. *)
Definition getDurationIn (this : Component) : jssum :=
  let duration := getDuration this in
  js_add (get duration "enter") (get duration "delay").

(** [getDurationOut], lines 183 to 186. *)
Definition getDurationOut (this : Component) : jsval :=
  let duration := getDuration this in
  get duration "exit".

(** [getFlow], lines 110 to 112. *)
Definition getFlow (this : Component) : obj :=
  flow (energyInterface (state this)).

(** [render], lines 87 to 93: the value handed to the context provider,
    around children that are passed through. *)
Definition render (this : Component) : EnergyInterface :=
  energyInterface (state this).

(** ** Notions used by the further properties *)

(** The transition table of the flow machine. *)
Definition allowed (from to : FlowValue) : bool :=
  match from, to with
  | EXITED, ENTERING | EXITING, ENTERING
  | ENTERING, ENTERED
  | ENTERING, EXITING | ENTERED, EXITING
  | EXITING, EXITED => true
  | _, _ => false
  end.

(** A history of flow values that moves along the table from [from]. *)
Fixpoint follows (from : FlowValue) (fvs : list FlowValue) : bool :=
  match fvs with
  | [] => true
  | fv :: rest => allowed from fv && follows fv rest
  end.

(** The flow value a closure commits. *)
Definition target (cb : Callback) : FlowValue :=
  match cb with
  | EnterStart => ENTERING
  | ExitStart => EXITING
  | FlowTo fv => fv
  end.

(** The flow values in which a closure can be the pending one. *)
Definition awaits (fv : FlowValue) (cb : Callback) : bool :=
  match cb with
  | FlowTo ENTERING | FlowTo EXITING => false
  | _ => allowed fv (target cb)
  end.

(** The pending timer, if any, is the slot's and fits the flow value. *)
Definition coherent (w : World) : Prop :=
  single_slot w
  ∧ map_Forall (λ _ tc, awaits (flowValue (state (node w))) tc.2 = true)
      (timers (host w)).

#[global] Instance coherent_dec (w : World) : Decision (coherent w).
Proof. unfold coherent. apply _. Defined.

(** The React state holds the interface built from its flow value. *)
Definition published (s : State) : Prop :=
  energyInterface s = getEnergyInterface (flowValue s).



(** The arguments the user's [onActivate] was invoked with, oldest first. *)
Definition reports (tr : list Effect) : list bool :=
  omap (λ e, match e with CallOnActivate b => Some b | _ => None end) tr.

(** No two neighbours equal, starting after [previous]. *)
Fixpoint alternates (previous : bool) (bs : list bool) : bool :=
  match bs with
  | [] => true
  | b :: rest => negb (eqb b previous) && alternates b rest
  end.

(** The props an event brings, if it brings any. *)
Definition event_props (ev : Event) : option Props :=
  match ev with Update p => Some p | _ => None end.

(** Every re-render of a run has props satisfying [P]. *)
Definition updates_with (P : Props → bool) (evs : list Event) : bool :=
  forallb (λ ev, from_option P true (event_props ev)) evs.

Definition is_setTimeout (e : Effect) : bool :=
  match e with CallSetTimeout _ _ _ => true | _ => false end.

Definition is_fire (ev : Event) : bool :=
  match ev with Fire _ => true | _ => false end.

(** Where a history of flow values ends, from [from]. *)
Fixpoint final (from : FlowValue) (fvs : list FlowValue) : FlowValue :=
  match fvs with
  | [] => from
  | fv :: rest => final fv rest
  end.

Definition is_clearTimeout (e : Effect) : bool :=
  match e with CallClearTimeout _ => true | _ => false end.

(** A root that entered and was then deactivated, before any timer has
    come due: it is still ENTERED, with the first step of the exit
    pending. *)
Definition leaving_world : World :=
  reached plain_root [Fire 0; Fire 1; Update (root_with None (Some false))].

(** A root whose entry has begun. *)
Definition entering_world : World := reached plain_root [Fire 0].

(** A node below a parent that renders [parent]. *)
Definition child_of (parent : EnergyInterface) (merge : option bool) : Props :=
  {| animate := None; root := None; activate := None; duration := None;
     merge := merge; onActivate := true; animationContext := no_context;
     parentEnergyContext := Some parent |}.

(** Props that declare the node non-root and bring no parent context. *)
Definition orphaned (p : Props) : bool :=
  match root p, parentEnergyContext p with
  | Some false, None => true
  | _, _ => false
  end.

(** A root forced by its [root] prop, below a parent that renders
    [parent]. *)
Definition forced_root (parent : EnergyInterface) (activate : option bool)
  : Props :=
  {| animate := None; root := Some true; activate := activate;
     duration := None; merge := Some true; onActivate := true;
     animationContext := no_context; parentEnergyContext := Some parent |}.

(** * Properties *)

(** ** Duration resolver *)

Lemma lookup_spread (acc : obj) (src : option obj) (k : string) :
  spread acc src !! k =
    match default ∅ src !! k with Some v => Some v | None => acc !! k end.
Proof.
  unfold spread. rewrite lookup_union.
  destruct (default ∅ src !! k), (acc !! k); reflexivity.
Qed.

Lemma layer_field_shapeOf (layer : option DurationValue) (k : string) :
  default ∅ (shapeOf layer) !! k = layer_field layer k.
Proof.
  destruct layer as [[n|o]|]; simpl; [|done|done].
  case_decide as Hk.
  - destruct Hk as [-> | ->]; reflexivity.
  - rewrite lookup_insert_ne by (intros <-; tauto).
    rewrite lookup_singleton_ne by (intros <-; tauto). reflexivity.
Qed.

Lemma getDuration_lookup (this : Component) (k : string) :
  getDuration this !! k =
    resolve (AnimationContext.duration (animationContext (props this)))
            (duration (props this))
            (DurShape <$> customDuration this) k.
Proof.
  unfold getDuration, resolve, first_defined, builtin_default, defaultDuration.
  rewrite !lookup_spread, lookup_empty.
  rewrite (layer_field_shapeOf (duration (props this))).
  destruct (customDuration this) as [c|],
    (AnimationContext.duration (animationContext (props this))) as [a|];
    simpl; rewrite ?lookup_empty;
    repeat match goal with
      | |- context [match ?o with Some _ => _ | None => _ end] =>
          lazymatch o with
          | context [match _ with _ => _ end] => fail
          | _ => destruct o
          end
      end; reflexivity.
Qed.

(** C2. The resolved duration is the field-level overlay of the built-in
    default, the ambient duration, the declared duration (a bare number
    standing for enter and exit only) and the runtime override, each field
    coming from the highest layer that defines it, absent layers defining
    nothing. *)
Theorem getDuration_overlay (this : Component)
    (override : option DurationValue) (k : string) :
  getDuration (updateDuration override this) !! k =
    resolve (AnimationContext.duration (animationContext (props this)))
            (duration (props this)) override k.
Proof.
  rewrite getDuration_lookup. simpl.
  unfold resolve, first_defined.
  replace (layer_field (DurShape <$> shapeOf override) k)
    with (layer_field override k); [reflexivity|].
  rewrite <- (layer_field_shapeOf override).
  destruct (shapeOf override); reflexivity.
Qed.

(** ** Initial state *)

Lemma isAnimate_enabled (p : Props) : isAnimate p = animation_enabled p.
Proof.
  unfold isAnimate, animation_enabled.
  destruct (animate p), (AnimationContext.animate (animationContext p));
    reflexivity.
Qed.

(** ** Scheduler *)

Lemma unschedule_node (w : World) : node (unschedule w) = node w.
Proof. reflexivity. Qed.

Lemma unschedule_timers (w : World) :
  timers (host (unschedule w)) =
    cleared (scheduleTimeout (node w)) (timers (host w)).
Proof. unfold unschedule, clearTimeout. simpl. by destruct scheduleTimeout. Qed.

Lemma unschedule_trace (w : World) :
  trace (host (unschedule w)) =
    trace (host w) ++ [CallClearTimeout (scheduleTimeout (node w))].
Proof. unfold unschedule, clearTimeout. simpl. by destruct scheduleTimeout. Qed.

Lemma schedule_node (t : jsval) (cb : Callback) (w : World) :
  node (schedule t cb w) =
    set_scheduleTimeout (Some (nextTimer (host w))) (node w).
Proof. unfold schedule, unschedule, clearTimeout. simpl. by destruct scheduleTimeout. Qed.

Lemma schedule_timers (t : jsval) (cb : Callback) (w : World) :
  timers (host (schedule t cb w)) =
    <[nextTimer (host w) := (t, cb)]>
      (cleared (scheduleTimeout (node w)) (timers (host w))).
Proof. unfold schedule, unschedule, clearTimeout. simpl. by destruct scheduleTimeout. Qed.

Lemma schedule_trace (t : jsval) (cb : Callback) (w : World) :
  trace (host (schedule t cb w)) =
    trace (host w) ++ [CallClearTimeout (scheduleTimeout (node w));
                       CallSetTimeout (nextTimer (host w)) t cb].
Proof.
  unfold schedule, unschedule, clearTimeout. simpl.
  destruct scheduleTimeout; simpl; by rewrite <- app_assoc.
Qed.

(** [enter] and [exit] either return at once or call [schedule]. *)
Lemma enter_cases (w : World) :
  enter w = w ∨ ∃ t, enter w = schedule t EnterStart w.
Proof. unfold enter. case_decide; eauto. Qed.

Lemma exit_cases (w : World) :
  exit w = w ∨ exit w = schedule (VNum 0) ExitStart w.
Proof. unfold exit. case_decide; eauto. Qed.

Lemma enter_state (w : World) : state (node (enter w)) = state (node w).
Proof. destruct (enter_cases w) as [-> | [t ->]]; [done|]. by rewrite schedule_node. Qed.

Lemma exit_state (w : World) : state (node (exit w)) = state (node w).
Proof. destruct (exit_cases w) as [-> | ->]; [done|]. by rewrite schedule_node. Qed.

(** C6. At creation the flow value is EXITED when animation is enabled
    (the per-node flag, else the ambient flag, else true) and ENTERED
    otherwise; mounting does not alter it. *)
Theorem initial_flow_value (p : Props) (h : Host) :
  flowValue (state (constructor p)) =
    (if animation_enabled p then EXITED else ENTERED)
  ∧ ∀ w, mount p h = Ok w →
      flowValue (state (node w)) =
        (if animation_enabled p then EXITED else ENTERED).
Proof.
  assert (flowValue (state (constructor p)) =
            (if animation_enabled p then EXITED else ENTERED)) as H0.
  { simpl. by rewrite isAnimate_enabled. }
  split; [exact H0|].
  intros w. unfold mount, componentDidMount. simpl.
  destruct (isActivated p) as [a|e]; simpl; [|discriminate].
  destruct (isAnimate p && a); intros [= <-].
  - rewrite enter_state. exact H0.
  - exact H0.
Qed.

(** ** No-op calls *)

Lemma enter_idle (w : World) :
  flowValue (state (node w)) = ENTERING ∨ flowValue (state (node w)) = ENTERED →
  enter w = w.
Proof. intros H. unfold enter. by rewrite decide_True. Qed.

Lemma exit_idle (w : World) :
  flowValue (state (node w)) = EXITING ∨ flowValue (state (node w)) = EXITED →
  exit w = w.
Proof. intros H. unfold exit. by rewrite decide_True. Qed.

(** C5. [enter] while ENTERING or ENTERED, and [exit] while EXITING or
    EXITED, return the node and the host exactly as they were: no state
    changes, the timer slot is untouched, nothing is scheduled. *)
Theorem enter_exit_noop (w : World) :
  (flowValue (state (node w)) = ENTERING ∨ flowValue (state (node w)) = ENTERED →
   enter w = w)
  ∧ (flowValue (state (node w)) = EXITING ∨ flowValue (state (node w)) = EXITED →
     exit w = w).
Proof. split; [apply enter_idle | apply exit_idle]. Qed.

(** ** Overrides *)

(** C10. An override replaces the previous one wholesale, whatever the
    two are: the node after two calls is the node after the second alone,
    and the stored override is the shape of the second.  So after
    overriding the delay and then overriding with a bare number, the
    stored override holds enter and exit only, and the resolved delay is
    the one the layers below give. *)
Theorem updateDuration_replaces (this : Component) (d : jsval) (n : Z)
    (previous next : option DurationValue) :
  let first := updateDuration (Some (DurShape {[ "delay" := d ]})) this in
  let second := updateDuration (Some (DurNumber n)) first in
  updateDuration next (updateDuration previous this) = updateDuration next this
  ∧ customDuration (updateDuration next (updateDuration previous this)) =
      shapeOf next
  ∧ (∀ k, getDuration (updateDuration next (updateDuration previous this)) !! k
          = resolve (AnimationContext.duration (animationContext (props this)))
                    (duration (props this)) next k)
  ∧ getDuration first !! "delay" = Some d
  ∧ customDuration second = Some {[ "enter" := VNum n; "exit" := VNum n ]}
  ∧ getDuration second !! "delay" =
      getDuration (set_customDuration None this) !! "delay"
  ∧ getDuration second !! "enter" = Some (VNum n)
  ∧ getDuration second !! "exit" = Some (VNum n).
Proof.
  simpl. split; [reflexivity|]. split; [reflexivity|]. split.
  - intros k. rewrite getDuration_lookup. simpl.
    unfold resolve, first_defined.
    replace (layer_field (DurShape <$> shapeOf next) k)
      with (layer_field next k); [reflexivity|].
    rewrite <- (layer_field_shapeOf next). by destruct (shapeOf next).
  - rewrite !getDuration_lookup. simpl. repeat split; reflexivity.
Qed.

(** ** Activation evaluator *)

(** C3, as the code has it.  A non-root node whose parent context is
    missing makes the evaluator raise a TypeError; it does not answer
    "not activated". *)
Theorem isActivated_missing_parent (p : Props) :
  isRoot p = false → parentEnergyContext p = None →
  isActivated p = Throw TypeError.
Proof. unfold isActivated. by intros -> ->. Qed.

Lemma isActivated_missing_parent_witness :
  isRoot orphan = false ∧ parentEnergyContext orphan = None
  ∧ isActivated orphan = Throw TypeError.
Proof.
  split; [reflexivity|]. split; [reflexivity|].
  apply (isActivated_missing_parent orphan); reflexivity.
Defined.

(** C3, as the specification has it, fails on [orphan]: the node is not
    a root, its parent context is missing, and the evaluator does not
    return [false]. *)
Lemma isActivated_orphan_fails :
  isRoot orphan = false ∧ parentEnergyContext orphan = None
  ∧ isActivated orphan ≠ Ok false.
Proof. split; [reflexivity|]. split; [reflexivity|]. discriminate. Qed.

(** The evaluator fails in no other case. *)
Lemma isActivated_total (p : Props) :
  isRoot p = true ∨ is_Some (parentEnergyContext p) →
  ∃ b, isActivated p = Ok b.
Proof.
  unfold isActivated. intros [-> | [e ->]].
  - destruct (activate p); eauto.
  - destruct (isRoot p); [destruct (activate p); eauto|].
    destruct (truthy_prop (merge p)); eauto.
Qed.

(** ** The single-slot discipline *)

Arguments schedule : simpl never.
Arguments enter : simpl never.
Arguments exit : simpl never.

Lemma single_slot_cleared (w : World) :
  single_slot w → cleared (scheduleTimeout (node w)) (timers (host w)) = ∅.
Proof.
  intros H. apply map_eq. intros i. rewrite lookup_empty.
  destruct (cleared (scheduleTimeout (node w)) (timers (host w)) !! i)
    as [x|] eqn:Ei; [exfalso|reflexivity].
  unfold cleared in Ei. destruct (scheduleTimeout (node w)) as [id|] eqn:E.
  - apply lookup_delete_Some in Ei as [Hne Ei].
    pose proof (H _ _ Ei) as Hi. simpl in Hi. congruence.
  - pose proof (H _ _ Ei) as Hi. simpl in Hi. congruence.
Qed.

Lemma schedule_single (t : jsval) (cb : Callback) (w : World) :
  single_slot w →
  timers (host (schedule t cb w)) = {[ nextTimer (host w) := (t, cb) ]}.
Proof.
  intros H. rewrite schedule_timers, single_slot_cleared by done.
  apply insert_empty.
Qed.

Lemma single_slot_schedule (t : jsval) (cb : Callback) (w : World) :
  single_slot w → single_slot (schedule t cb w).
Proof.
  intros H. unfold single_slot.
  rewrite schedule_single, schedule_node by done.
  by apply map_Forall_singleton.
Qed.

Lemma single_slot_unschedule (w : World) :
  single_slot w → timers (host (unschedule w)) = ∅.
Proof. intros H. rewrite unschedule_timers. by apply single_slot_cleared. Qed.

Lemma single_slot_same (w w' : World) :
  scheduleTimeout (node w') = scheduleTimeout (node w) →
  timers (host w') ⊆ timers (host w) →
  single_slot w → single_slot w'.
Proof.
  unfold single_slot. intros -> Hsub H i x Hi.
  apply (H i x). by eapply lookup_weaken.
Qed.

Lemma single_slot_enter (w : World) : single_slot w → single_slot (enter w).
Proof.
  intros H. destruct (enter_cases w) as [-> | [t ->]]; [done|].
  by apply single_slot_schedule.
Qed.

Lemma single_slot_exit (w : World) : single_slot w → single_slot (exit w).
Proof.
  intros H. destruct (exit_cases w) as [-> | ->]; [done|].
  by apply single_slot_schedule.
Qed.

(** ** Frames of the lifecycle methods *)

Lemma componentDidUpdate_unfold (w : World) :
  componentDidUpdate w =
    (now ← isActivated (props (node w));
     if isAnimate (props (node w)) && negb (eqb now (activated (node w)))
     then Ok ((if now then enter else exit) (announced now w))
     else Ok w).
Proof.
  unfold componentDidUpdate, announced.
  destruct (isActivated (props (node w))) as [now|e]; simpl; [|done].
  destruct (isAnimate (props (node w)) && negb (eqb now (activated (node w))));
    [|done].
  by destruct now.
Qed.

Lemma componentDidUpdate_total (w : World) (a : bool) :
  isActivated (props (node w)) = Ok a → ∃ w', componentDidUpdate w = Ok w'.
Proof.
  intros H. rewrite componentDidUpdate_unfold, H. simpl.
  destruct (isAnimate _ && _); eauto.
Qed.

(** An update leaves the props, the React state, the markers and the
    override alone, and keeps the single-slot discipline. *)
Lemma componentDidUpdate_frame (w w' : World) :
  componentDidUpdate w = Ok w' →
  props (node w') = props (node w)
  ∧ state (node w') = state (node w)
  ∧ flowHasEntered (node w') = flowHasEntered (node w)
  ∧ flowHasExited (node w') = flowHasExited (node w)
  ∧ customDuration (node w') = customDuration (node w)
  ∧ (single_slot w → single_slot w').
Proof.
  rewrite componentDidUpdate_unfold.
  destruct (isActivated (props (node w))) as [now|e]; simpl; [|discriminate].
  destruct (isAnimate _ && _); intros [= <-]; [|tauto].
  assert (single_slot w → single_slot (announced now w)) as Hs.
  { apply single_slot_same; unfold announced; simpl;
      by destruct (onActivate (props (node w))). }
  assert (∀ v : World,
    v = announced now w ∨ (∃ t cb, v = schedule t cb (announced now w)) →
    props (node v) = props (node w)
    ∧ state (node v) = state (node w)
    ∧ flowHasEntered (node v) = flowHasEntered (node w)
    ∧ flowHasExited (node v) = flowHasExited (node w)
    ∧ customDuration (node v) = customDuration (node w)
    ∧ (single_slot w → single_slot v)) as Hv.
  { intros v [-> | (t & cb & ->)].
    - unfold announced; simpl.
      repeat split; by destruct (onActivate (props (node w))).
    - rewrite schedule_node. unfold announced; simpl.
      repeat split; try by destruct (onActivate (props (node w))).
      all: intros H; by apply single_slot_schedule, Hs. }
  apply Hv. destruct now.
  - destruct (enter_cases (announced true w)) as [-> | [t ->]]; eauto.
  - destruct (exit_cases (announced false w)) as [-> | ->]; eauto.
Qed.

(** [setFlowValue] commits the flow value and the marker that goes with
    it, and nothing else of the node but what the update it triggers
    records. *)
Lemma setFlowValue_inv (fv : FlowValue) (w w' : World) :
  setFlowValue fv w = Ok w' →
  flowValue (state (node w')) = fv
  ∧ props (node w') = props (node w)
  ∧ customDuration (node w') = customDuration (node w)
  ∧ flowHasEntered (node w') =
      (if decide (fv = ENTERED) then true else flowHasEntered (node w))
  ∧ flowHasExited (node w') =
      (if decide (fv = EXITED) then true else flowHasExited (node w))
  ∧ (single_slot w → single_slot w').
Proof.
  unfold setFlowValue.
  set (w0 := on_node _ (on_host _ w)).
  destruct (componentDidUpdate w0) as [w1|e] eqn:E; simpl; [|discriminate].
  apply componentDidUpdate_frame in E as (Hp & Hs & He & Hx & Hc & Hslot).
  assert (single_slot w → single_slot w1) as Hslot'.
  { intros H. apply Hslot. revert H. by apply single_slot_same. }
  intros [= <-].
  destruct fv; simpl; rewrite ?Hs, ?Hp, ?Hc, ?He, ?Hx; simpl;
    repeat split; try done.
  all: intros H; eapply single_slot_same; [| |exact (Hslot' H)]; done.
Qed.

Lemma setFlowValue_total (fv : FlowValue) (w : World) (a : bool) :
  isActivated (props (node w)) = Ok a → ∃ w', setFlowValue fv w = Ok w'.
Proof.
  intros H. unfold setFlowValue.
  set (w0 := on_node _ (on_host _ w)).
  destruct (componentDidUpdate_total w0 a) as [w1 E]; [done|].
  rewrite E. simpl. eauto.
Qed.

(** The closure scheduled by [enter], whenever it runs: the duration is
    read as it is then, the flow value becomes ENTERING and the slot holds
    the one pending timer, due after [duration.enter], that completes the
    entry. *)
Lemma call_EnterStart (w : World) (a : bool) :
  isActivated (props (node w)) = Ok a → single_slot w →
  ∃ w' h,
    call EnterStart w = Ok w'
    ∧ flowValue (state (node w')) = ENTERING
    ∧ props (node w') = props (node w)
    ∧ scheduleTimeout (node w') = Some h
    ∧ timers (host w') =
        {[ h := (get (getDuration (node w)) "enter", FlowTo ENTERED) ]}.
Proof.
  intros Ha Hslot. simpl.
  destruct (setFlowValue_total ENTERING w a Ha) as [w1 E]. rewrite E. simpl.
  apply setFlowValue_inv in E as (Hf & Hp & _ & _ & _ & Hs).
  eexists _, (nextTimer (host w1)). split; [reflexivity|].
  rewrite schedule_node, schedule_single by auto. done.
Qed.

Lemma call_FlowTo (fv : FlowValue) (w : World) (a : bool) :
  isActivated (props (node w)) = Ok a →
  ∃ w', call (FlowTo fv) w = Ok w'
        ∧ flowValue (state (node w')) = fv
        ∧ props (node w') = props (node w).
Proof.
  intros Ha. simpl.
  destruct (setFlowValue_total fv w a Ha) as [w1 E]. rewrite E.
  apply setFlowValue_inv in E as (Hf & Hp & _). eauto.
Qed.

Lemma fire_pending (h : nat) (t : jsval) (cb : Callback) (w : World) :
  timers (host w) !! h = Some (t, cb) →
  fire h w = call cb (on_host (expire h) w).
Proof. unfold fire. by intros ->. Qed.

Lemma single_slot_expire (h : nat) (w : World) :
  single_slot w → single_slot (on_host (expire h) w).
Proof. apply single_slot_same; [done|]. simpl. apply delete_subseteq. Qed.

(** Once the slot's timer for the first step has come due, the entry runs
    to completion if nothing else intervenes. *)
Lemma entry_completes (w : World) (h : nat) (t : jsval) (a : bool) :
  isActivated (props (node w)) = Ok a → single_slot w →
  timers (host w) !! h = Some (t, EnterStart) →
  ∃ w1 h1,
    fire h w = Ok w1
    ∧ flowValue (state (node w1)) = ENTERING
    ∧ props (node w1) = props (node w)
    ∧ scheduleTimeout (node w1) = Some h1
    ∧ timers (host w1) =
        {[ h1 := (get (getDuration (node w)) "enter", FlowTo ENTERED) ]}
    ∧ ∃ w2, fire h1 w1 = Ok w2
            ∧ flowValue (state (node w2)) = ENTERED
            ∧ props (node w2) = props (node w).
Proof.
  intros Ha Hslot Hh. rewrite (fire_pending _ _ _ _ Hh).
  destruct (call_EnterStart (on_host (expire h) w) a)
    as (w1 & h1 & E1 & Hf1 & Hp1 & Hs1 & Ht1); [done|by apply single_slot_expire|].
  exists w1, h1. repeat split; try done.
  assert (timers (host w1) !! h1 =
            Some (get (getDuration (node w)) "enter", FlowTo ENTERED)) as Hh1.
  { rewrite Ht1. apply lookup_singleton_eq. }
  rewrite (fire_pending _ _ _ _ Hh1).
  destruct (call_FlowTo ENTERED (on_host (expire h1) w1) a)
    as (w2 & E2 & Hf2 & Hp2); [simpl; by rewrite Hp1|].
  exists w2. repeat split; try done. by rewrite Hp2.
Qed.

(** ** Runs *)

Lemma steps_app (evs1 evs2 : list Event) (w : World) :
  steps (evs1 ++ evs2) w = (w' ← steps evs1 w; steps evs2 w').
Proof.
  revert w. induction evs1 as [|ev evs1 IH]; intros w; simpl; [done|].
  destruct (step ev w) as [w1|e]; simpl; [apply IH|done].
Qed.

Lemma steps_overrides (ds : list (option DurationValue)) (w : World) :
  steps (Override <$> ds) w =
    Ok (on_node (λ c, foldl (λ c d, updateDuration d c) c ds) w).
Proof.
  revert w. induction ds as [|d ds IH]; intros w; simpl.
  - by destruct w.
  - apply IH.
Qed.

Lemma overrides_scheduleTimeout (ds : list (option DurationValue))
    (c : Component) (slot : option nat) :
  foldl (λ c d, updateDuration d c) (set_scheduleTimeout slot c) ds =
    set_scheduleTimeout slot (foldl (λ c d, updateDuration d c) c ds).
Proof.
  revert c. induction ds as [|d ds IH]; intros c; simpl; [done|].
  rewrite <- IH. reflexivity.
Qed.

Lemma overrides_props (ds : list (option DurationValue)) (c : Component) :
  props (foldl (λ c d, updateDuration d c) c ds) = props c.
Proof.
  revert c. induction ds as [|d ds IH]; intros c; simpl; [done|by rewrite IH].
Qed.

(** ** Entering *)

(** C1. Outside ENTERING and ENTERED, [enter] schedules its first step
    after [duration.delay] when the node is EXITED and after 0 otherwise.
    Scheduling clears the slot first, so that step is the only pending
    timer: a pending transition to EXITED is cancelled.  When the step
    comes due, the duration is read again (overrides made in the meantime
    count), the flow value becomes ENTERING, and the transition to ENTERED
    is scheduled after [duration.enter]; when that comes due the flow
    value is ENTERED. *)
Theorem enter_schedules (w : World) (ds : list (option DurationValue))
    (a : bool) :
  let fv := flowValue (state (node w)) in
  let delay :=
    if decide (fv = EXITED) then get (getDuration (node w)) "delay"
    else VNum 0 in
  let h := nextTimer (host w) in
  let later := foldl (λ c d, updateDuration d c) (node w) ds in
  fv ≠ ENTERING → fv ≠ ENTERED →
  single_slot w → isActivated (props (node w)) = Ok a →
  node (enter w) = set_scheduleTimeout (Some h) (node w)
  ∧ timers (host (enter w)) = {[ h := (delay, EnterStart) ]}
  ∧ (∀ id t, timers (host (enter w)) !! id ≠ Some (t, FlowTo EXITED))
  ∧ ∃ w1 h1,
      steps ((Override <$> ds) ++ [Fire h]) (enter w) = Ok w1
      ∧ flowValue (state (node w1)) = ENTERING
      ∧ scheduleTimeout (node w1) = Some h1
      ∧ timers (host w1) =
          {[ h1 := (get (getDuration later) "enter", FlowTo ENTERED) ]}
      ∧ ∃ w2, fire h1 w1 = Ok w2 ∧ flowValue (state (node w2)) = ENTERED.
Proof.
  intros fv delay h later Hn1 Hn2 Hslot Ha.
  assert (enter w = schedule delay EnterStart w) as ->.
  { unfold enter. fold fv. rewrite decide_False by tauto. done. }
  assert (timers (host (schedule delay EnterStart w)) =
            {[ h := (delay, EnterStart) ]}) as Ht by by apply schedule_single.
  split; [apply schedule_node|]. split; [exact Ht|]. split.
  { intros id t. rewrite Ht. intros [_ [=]]%lookup_singleton_Some. }
  rewrite steps_app, steps_overrides. simpl.
  set (w0 := on_node _ (schedule delay EnterStart w)).
  assert (node w0 = set_scheduleTimeout (Some h) later) as Hn0.
  { unfold w0, on_node. cbn [node]. rewrite schedule_node.
    apply overrides_scheduleTimeout. }
  destruct (entry_completes w0 h delay a)
    as (w1 & h1 & E1 & Hf1 & Hp1 & Hs1 & Ht1 & w2 & E2 & Hf2 & _).
  - rewrite Hn0. simpl. unfold later. by rewrite overrides_props.
  - eapply single_slot_same; [| |apply (single_slot_schedule delay EnterStart w Hslot)].
    + rewrite Hn0, schedule_node. done.
    + done.
  - unfold w0, on_node. cbn [host]. rewrite Ht. apply lookup_singleton_eq.
  - exists w1, h1. rewrite E1. rewrite Hn0 in Ht1. eauto 10.
Qed.

Lemma enter_schedules_witness :
  flowValue (state (node exiting_world)) = EXITING
  ∧ timers (host exiting_world) = {[ 3 := (VNum 200, FlowTo EXITED) ]}
  ∧ timers (host (enter exiting_world)) = {[ 4 := (VNum 0, EnterStart) ]}.
Proof.
  split; [reflexivity|]. split; [by vm_compute|].
  assert (single_slot exiting_world) as Hs.
  { apply (bool_decide_unpack _). by vm_compute. }
  assert (isActivated (props (node exiting_world)) = Ok false) as Ha
    by reflexivity.
  destruct (enter_schedules exiting_world [] false) as (_ & Ht & _);
    [by vm_compute | by vm_compute | exact Hs | exact Ha |].
  exact Ht.
Defined.

Lemma initial_flow_value_witness :
  flowValue (state (node (reached plain_root []))) = EXITED.
Proof.
  apply (proj2 (initial_flow_value plain_root idle) (reached plain_root [])).
  reflexivity.
Defined.

Lemma enter_exit_noop_witness :
  enter entered_world = entered_world ∧ exit waiting_world = waiting_world.
Proof.
  split.
  - apply (proj1 (enter_exit_noop entered_world)). right. reflexivity.
  - apply (proj2 (enter_exit_noop waiting_world)). right. reflexivity.
Defined.

(** ** A deactivation that arrives during the entry delay *)

(** C9. While the node is EXITED with the first step of an entry pending,
    [exit] returns at once; an update that deactivates the node therefore
    leaves that timer pending, and when it and its successor come due the
    node becomes ENTERING and then ENTERED, though it is not activated. *)
Theorem exit_keeps_pending_enter (w : World) (h : nat) (t : jsval)
    (p : Props) :
  flowValue (state (node w)) = EXITED →
  single_slot w →
  timers (host w) !! h = Some (t, EnterStart) →
  isActivated p = Ok false →
  exit w = w
  ∧ ∃ w0,
      step (Update p) w = Ok w0
      ∧ timers (host w0) = timers (host w)
      ∧ flowValue (state (node w0)) = EXITED
      ∧ ∃ w1 h1,
          fire h w0 = Ok w1
          ∧ flowValue (state (node w1)) = ENTERING
          ∧ timers (host w1) =
              {[ h1 := (get (getDuration (node w0)) "enter", FlowTo ENTERED) ]}
          ∧ ∃ w2,
              fire h1 w1 = Ok w2
              ∧ flowValue (state (node w2)) = ENTERED
              ∧ isActivated (props (node w2)) = Ok false.
Proof.
  intros Hf Hslot Hh Hp.
  split; [apply exit_idle; by right|].
  set (w' := on_node (set_props p) w).
  assert (∃ w0, componentDidUpdate w' = Ok w0
                ∧ node w0 = set_activated (activated (node w0)) (node w')
                ∧ timers (host w0) = timers (host w)) as (w0 & E0 & Hn0 & Ht0).
  { rewrite componentDidUpdate_unfold. simpl. rewrite Hp. simpl.
    destruct (isAnimate p && _).
    - rewrite exit_idle.
      + eexists; split; [reflexivity|].
        unfold announced; simpl. by destruct (onActivate p).
      + right. unfold announced; simpl. by destruct (onActivate p).
    - exists w'. repeat split. }
  assert (props (node w0) = p) as Hp0 by by rewrite Hn0.
  exists w0. split; [exact E0|]. split; [exact Ht0|].
  split; [by rewrite Hn0|].
  destruct (entry_completes w0 h t false)
    as (w1 & h1 & E1 & Hf1 & Hp1 & Hs1 & Ht1 & w2 & E2 & Hf2 & Hp2).
  - by rewrite Hp0.
  - revert Hslot. apply single_slot_same; [by rewrite Hn0|by rewrite Ht0].
  - by rewrite Ht0.
  - exists w1, h1. repeat split; try done.
    exists w2. repeat split; try done. by rewrite Hp2, Hp0.
Qed.

Lemma exit_keeps_pending_enter_witness :
  flowValue (state (node waiting_world)) = EXITED
  ∧ timers (host waiting_world) = {[ 0 := (VNum 300, EnterStart) ]}
  ∧ exit waiting_world = waiting_world
  ∧ ∃ w2, steps [Update (root_with None (Some false)); Fire 0; Fire 1]
            waiting_world = Ok w2
          ∧ flowValue (state (node w2)) = ENTERED
          ∧ isActivated (props (node w2)) = Ok false.
Proof.
  split; [reflexivity|]. split; [by vm_compute|].
  assert (single_slot waiting_world) as Hs.
  { apply (bool_decide_unpack _). by vm_compute. }
  destruct (exit_keeps_pending_enter waiting_world 0 (VNum 300)
              (root_with None (Some false)))
    as (Hx & _); [reflexivity | exact Hs | by vm_compute | reflexivity |].
  split; [exact Hx|].
  eexists. split; [by vm_compute|]. split; reflexivity.
Defined.

(** ** Traces *)

Lemma timer_calls_quiet (tr : list Effect) :
  forallb is_timer_call tr = true →
  filter is_onActivate tr = [] ∧ transitions tr = [].
Proof.
  induction tr as [|e tr IH]; simpl; [done|].
  intros [He Htr]%andb_prop. destruct (IH Htr) as [IH1 IH2].
  unfold transitions in *. destruct e; try discriminate; simpl.
  all: rewrite IH2; split; [|done].
  all: rewrite filter_cons_False by (simpl; tauto); done.
Qed.

Lemma schedule_trace_calls (t : jsval) (cb : Callback) (w : World) :
  ∃ rest, trace (host (schedule t cb w)) = trace (host w) ++ rest
          ∧ forallb is_timer_call rest = true.
Proof. rewrite schedule_trace. eauto. Qed.

Lemma enter_trace_calls (w : World) :
  ∃ rest, trace (host (enter w)) = trace (host w) ++ rest
          ∧ forallb is_timer_call rest = true.
Proof.
  destruct (enter_cases w) as [-> | [t ->]]; [|apply schedule_trace_calls].
  exists []. by rewrite app_nil_r.
Qed.

Lemma exit_trace_calls (w : World) :
  ∃ rest, trace (host (exit w)) = trace (host w) ++ rest
          ∧ forallb is_timer_call rest = true.
Proof.
  destruct (exit_cases w) as [-> | ->]; [|apply schedule_trace_calls].
  exists []. by rewrite app_nil_r.
Qed.

(** What one run of [componentDidUpdate] does to the recorded activation
    and to the trace: the callback, if any, comes before the timer calls
    of [enter] or [exit]. *)
Lemma componentDidUpdate_trace (w w' : World) :
  componentDidUpdate w = Ok w' →
  ∃ now rest,
    isActivated (props (node w)) = Ok now
    ∧ let changed :=
        isAnimate (props (node w)) && negb (eqb now (activated (node w))) in
      trace (host w') =
        trace (host w)
        ++ (if changed && onActivate (props (node w))
            then [CallOnActivate now] else [])
        ++ rest
      ∧ forallb is_timer_call rest = true
      ∧ activated (node w') = (if changed then now else activated (node w)).
Proof.
  rewrite componentDidUpdate_unfold.
  destruct (isActivated (props (node w))) as [now|e]; simpl; [|discriminate].
  intros H. exists now.
  destruct (isAnimate (props (node w)) && negb (eqb now (activated (node w))));
    simpl; injection H as <-.
  - assert (∃ rest,
      trace (host ((if now then enter else exit) (announced now w))) =
        trace (host (announced now w)) ++ rest
      ∧ forallb is_timer_call rest = true) as (rest & Ht & Hr).
    { destruct now; [apply enter_trace_calls | apply exit_trace_calls]. }
    exists rest. rewrite Ht. split; [done|]. split.
    + unfold announced; simpl.
      destruct (onActivate (props (node w))); simpl; by rewrite <- ?app_assoc.
    + split; [done|].
      destruct now.
      * destruct (enter_cases (announced true w)) as [-> | [t ->]];
          rewrite ?schedule_node; unfold announced; simpl;
          by destruct (onActivate (props (node w))).
      * destruct (exit_cases (announced false w)) as [-> | ->];
          rewrite ?schedule_node; unfold announced; simpl;
          by destruct (onActivate (props (node w))).
  - exists []. by rewrite app_nil_r.
Qed.

Lemma transitions_app (tr1 tr2 : list Effect) :
  transitions (tr1 ++ tr2) = transitions tr1 ++ transitions tr2.
Proof. apply omap_app. Qed.

Lemma componentDidUpdate_transitions (w w' : World) :
  componentDidUpdate w = Ok w' →
  transitions (trace (host w')) = transitions (trace (host w)).
Proof.
  intros (now & rest & _ & Ht & Hr & _)%componentDidUpdate_trace.
  rewrite Ht, !transitions_app.
  destruct (timer_calls_quiet rest Hr) as [_ ->].
  destruct (_ && _); simpl; by rewrite !app_nil_r.
Qed.

Lemma setFlowValue_transitions (fv : FlowValue) (w w' : World) :
  setFlowValue fv w = Ok w' →
  transitions (trace (host w')) = transitions (trace (host w)) ++ [fv].
Proof.
  unfold setFlowValue.
  set (w0 := on_node _ (on_host _ w)).
  destruct (componentDidUpdate w0) as [w1|e] eqn:E; simpl; [|discriminate].
  apply componentDidUpdate_transitions in E.
  intros [= <-].
  assert (transitions (trace (host w1)) = transitions (trace (host w)) ++ [fv])
    as Ht.
  { rewrite E. unfold w0. simpl. by rewrite transitions_app. }
  rewrite <- Ht. by destruct fv.
Qed.

(** Everything a scheduled closure does to the node, but for the slot. *)
Lemma call_inv (cb : Callback) (w w' : World) :
  call cb w = Ok w' →
  ∃ fv,
    flowValue (state (node w')) = fv
    ∧ props (node w') = props (node w)
    ∧ customDuration (node w') = customDuration (node w)
    ∧ flowHasEntered (node w') =
        (if decide (fv = ENTERED) then true else flowHasEntered (node w))
    ∧ flowHasExited (node w') =
        (if decide (fv = EXITED) then true else flowHasExited (node w))
    ∧ transitions (trace (host w')) = transitions (trace (host w)) ++ [fv]
    ∧ (single_slot w → single_slot w').
Proof.
  assert (∀ fv t cb' w1,
    setFlowValue fv w = Ok w1 → w' = schedule t cb' w1 →
    flowValue (state (node w')) = fv
    ∧ props (node w') = props (node w)
    ∧ customDuration (node w') = customDuration (node w)
    ∧ flowHasEntered (node w') =
        (if decide (fv = ENTERED) then true else flowHasEntered (node w))
    ∧ flowHasExited (node w') =
        (if decide (fv = EXITED) then true else flowHasExited (node w))
    ∧ transitions (trace (host w')) = transitions (trace (host w)) ++ [fv]
    ∧ (single_slot w → single_slot w')) as Hstart.
  { intros fv t cb' w1 E ->.
    pose proof (setFlowValue_transitions _ _ _ E) as Ht.
    apply setFlowValue_inv in E as (Hf & Hp & Hc & He & Hx & Hs).
    destruct (schedule_trace_calls t cb' w1) as (r & Hr & Hq).
    rewrite schedule_node, Hr, transitions_app, Ht.
    rewrite (proj2 (timer_calls_quiet r Hq)), app_nil_r.
    repeat split; try done.
    intros H. by apply single_slot_schedule, Hs. }
  destruct cb as [| |fv]; unfold call.
  1,2: destruct (setFlowValue _ w) as [w1|e] eqn:E; [|discriminate];
    intros [= <-]; eexists; by eapply Hstart.
  intros E. pose proof (setFlowValue_transitions _ _ _ E) as Ht.
  apply setFlowValue_inv in E as (Hf & Hp & Hc & He & Hx & Hs).
  exists fv. rewrite Hf in *. done.
Qed.

Lemma marker_step (fv target : FlowValue) (x : bool) :
  (if decide (fv = target) then true else x) =
    x || bool_decide (target ∈ [fv]).
Proof.
  case_decide as Hfv.
  - subst. rewrite bool_decide_eq_true_2, orb_true_r; [done|].
    by apply list_elem_of_singleton.
  - rewrite bool_decide_eq_false_2, orb_false_r; [done|].
    by intros ->%list_elem_of_singleton.
Qed.

Lemma marker_app (target : FlowValue) (l1 l2 : list FlowValue) :
  bool_decide (target ∈ l1 ++ l2) =
    bool_decide (target ∈ l1) || bool_decide (target ∈ l2).
Proof.
  rewrite <- bool_decide_or. apply bool_decide_ext, elem_of_app.
Qed.

(** What one event does to the markers, to the history of transitions and
    to the override. *)
Lemma step_inv (ev : Event) (w w' : World) :
  step ev w = Ok w' →
  ∃ fvs,
    transitions (trace (host w')) = transitions (trace (host w)) ++ fvs
    ∧ flowHasEntered (node w') =
        flowHasEntered (node w) || bool_decide (ENTERED ∈ fvs)
    ∧ flowHasExited (node w') =
        flowHasExited (node w) || bool_decide (EXITED ∈ fvs)
    ∧ (is_override ev = false →
       customDuration (node w') = customDuration (node w)).
Proof.
  destruct ev as [p|h|d|]; unfold step.
  - intros E. exists []. rewrite app_nil_r, !orb_false_r.
    pose proof (componentDidUpdate_transitions _ _ E) as Ht.
    apply componentDidUpdate_frame in E as (_ & _ & He & Hx & Hc & _).
    by rewrite Ht, He, Hx, Hc.
  - unfold fire. destruct (timers (host w) !! h) as [[t cb]|].
    + intros (fv & _ & _ & Hc & He & Hx & Ht & _)%call_inv.
      exists [fv]. rewrite Ht, He, Hx, Hc, !marker_step. done.
    + intros [= <-]. exists []. by rewrite app_nil_r, !orb_false_r.
  - intros [= <-]. exists []. simpl. by rewrite app_nil_r, !orb_false_r.
  - intros [= <-]. exists []. unfold componentWillUnmount.
    rewrite unschedule_trace, unschedule_node, transitions_app, !orb_false_r.
    done.
Qed.

Lemma steps_inv (evs : list Event) (w w' : World) :
  steps evs w = Ok w' →
  ∃ fvs,
    transitions (trace (host w')) = transitions (trace (host w)) ++ fvs
    ∧ flowHasEntered (node w') =
        flowHasEntered (node w) || bool_decide (ENTERED ∈ fvs)
    ∧ flowHasExited (node w') =
        flowHasExited (node w) || bool_decide (EXITED ∈ fvs)
    ∧ (forallb (λ ev, negb (is_override ev)) evs = true →
       customDuration (node w') = customDuration (node w)).
Proof.
  revert w. induction evs as [|ev evs IH]; intros w; simpl.
  - intros [= <-]. exists []. by rewrite app_nil_r, !orb_false_r.
  - destruct (step ev w) as [w1|e] eqn:E; simpl; [|discriminate].
    intros (fvs2 & Ht2 & He2 & Hx2 & Hc2)%IH.
    apply step_inv in E as (fvs1 & Ht1 & He1 & Hx1 & Hc1).
    exists (fvs1 ++ fvs2).
    rewrite Ht2, Ht1, He2, He1, Hx2, Hx1, <- app_assoc, <- !orb_assoc.
    rewrite !marker_app. repeat split.
    intros [Hev Hevs]%andb_prop. rewrite Hc2, Hc1; [done| |done].
      by destruct (is_override ev).
Qed.

Lemma mount_inv (p : Props) (h : Host) (w : World) :
  mount p h = Ok w →
  flowHasEntered (node w) = false
  ∧ flowHasExited (node w) = false
  ∧ activated (node w) = false
  ∧ ∃ rest, trace (host w) = trace h ++ rest
            ∧ forallb is_timer_call rest = true.
Proof.
  unfold mount, componentDidMount. simpl.
  destruct (isActivated p) as [a|e]; simpl; [|discriminate].
  destruct (isAnimate p && a); intros [= <-].
  - destruct (enter_cases {| node := constructor p; host := h |})
      as [-> | [t ->]]; rewrite ?schedule_node; simpl; repeat split.
    + exists []. by rewrite app_nil_r.
    + apply (schedule_trace_calls t EnterStart
               {| node := constructor p; host := h |}).
  - simpl. repeat split. exists []. by rewrite app_nil_r.
Qed.

(** The single-slot discipline holds in every state a node reaches from
    its creation on a host with no timer of its own pending. *)
Lemma single_slot_step (ev : Event) (w w' : World) :
  step ev w = Ok w' → single_slot w → single_slot w'.
Proof.
  destruct ev as [p|h|d|]; unfold step.
  - intros (_ & _ & _ & _ & _ & Hs)%componentDidUpdate_frame H.
    apply Hs. revert H. by apply single_slot_same.
  - unfold fire. destruct (timers (host w) !! h) as [[t cb]|].
    + intros (fv & _ & _ & _ & _ & _ & _ & Hs)%call_inv H.
      by apply Hs, single_slot_expire.
    + by intros [= <-].
  - intros [= <-]. by apply single_slot_same.
  - intros [= <-] H. unfold componentWillUnmount, single_slot.
    rewrite single_slot_unschedule by done. apply map_Forall_empty.
Qed.

Lemma single_slot_reached (p : Props) (evs : list Event) (w : World) :
  (w0 ← mount p idle; steps evs w0) = Ok w → single_slot w.
Proof.
  destruct (mount p idle) as [w0|e] eqn:E0; simpl; [|discriminate].
  assert (single_slot w0) as H0.
  { unfold mount, componentDidMount in E0. simpl in E0.
    destruct (isActivated p) as [a|e]; simpl in E0; [|discriminate].
    assert (single_slot {| node := constructor p; host := idle |}) as Hc
      by apply map_Forall_empty.
    destruct (isAnimate p && a); injection E0 as <-; [|done].
    by apply single_slot_enter. }
  clear E0. revert w0 H0. induction evs as [|ev evs IH]; intros w0 H0; simpl.
  - by intros [= <-].
  - destruct (step ev w0) as [w1|e] eqn:E; simpl; [|discriminate].
    apply IH. by eapply single_slot_step.
Qed.

(** ** Persistence of the override *)

(** C8. After [updateDuration d], whatever re-renders, timers and
    teardown follow, and whatever the props and the ambient duration
    become, the stored override is the one of that call and the resolver
    applies it as its top layer, until [updateDuration] is called again. *)
Theorem override_persists (d : option DurationValue) (evs : list Event)
    (w w' : World) (k : string) :
  forallb (λ ev, negb (is_override ev)) evs = true →
  steps evs (on_node (updateDuration d) w) = Ok w' →
  customDuration (node w') = shapeOf d
  ∧ getDuration (node w') !! k =
      resolve (AnimationContext.duration (animationContext (props (node w'))))
              (duration (props (node w'))) d k.
Proof.
  intros Hevs (_ & _ & _ & _ & Hc)%steps_inv.
  specialize (Hc Hevs). simpl in Hc. split; [exact Hc|].
  rewrite getDuration_lookup, Hc.
  unfold resolve, first_defined.
  replace (layer_field (DurShape <$> shapeOf d) k) with (layer_field d k);
    [reflexivity|].
  rewrite <- (layer_field_shapeOf d). by destruct (shapeOf d).
Qed.

Lemma override_persists_witness :
  let w := on_node (updateDuration (Some (DurNumber 50))) entered_world in
  let evs := [Update (root_with None (Some false)); Fire 2; Update delayed] in
  steps evs w = Ok (after evs w)
  ∧ getDuration (node (after evs w)) !! "enter" = Some (VNum 50)
  ∧ getDuration (node (after evs w)) !! "delay" = Some (VNum 300).
Proof.
  intros w evs.
  assert (steps evs w = Ok (after evs w)) as E by by vm_compute.
  split; [exact E|]. split.
  - refine (eq_trans (proj2 (override_persists (Some (DurNumber 50)) evs
                               entered_world (after evs w) "enter" _ E)) _);
      by vm_compute.
  - refine (eq_trans (proj2 (override_persists (Some (DurNumber 50)) evs
                               entered_world (after evs w) "delay" _ E)) _);
      by vm_compute.
Defined.

(** ** The activation callback *)

Lemma onActivate_calls_app (tr1 tr2 : list Effect) :
  onActivate_calls (tr1 ++ tr2) = onActivate_calls tr1 + onActivate_calls tr2.
Proof. unfold onActivate_calls. by rewrite filter_app, length_app. Qed.

Lemma updates_calls (ps : list Props) (w w' : World) :
  steps (Update <$> ps) w = Ok w' →
  onActivate_calls (trace (host w')) =
    onActivate_calls (trace (host w)) + expected_calls (activated (node w)) ps.
Proof.
  revert w. induction ps as [|p ps IH]; intros w; simpl.
  - intros [= <-]. lia.
  - destruct (componentDidUpdate (on_node (set_props p) w)) as [w1|e] eqn:E;
      simpl; [|discriminate].
    intros ->%IH.
    apply componentDidUpdate_trace in E as (now & rest & Ha & Ht & Hr & Hrec).
    simpl in Ha, Ht, Hrec. rewrite Ha, Ht, Hrec, !onActivate_calls_app.
    unfold onActivate_calls at 3.
    rewrite (proj1 (timer_calls_quiet rest Hr)).
    destruct (isAnimate p && negb (eqb now (activated (node w)))); simpl;
      [destruct (onActivate p); simpl|]; unfold onActivate_calls; simpl; lia.
Qed.

(** C4, as the code has it.  Mounting never invokes the callback and
    records no activation (the recorded value stays false).  Each run of
    [componentDidUpdate] invokes the callback, when one is supplied, once
    if animation is enabled and the evaluator's value differs from the
    recorded one, and not otherwise; it then records the value, and the
    invocation precedes every timer call of the [enter] or [exit] of that
    update.  Over a sequence of re-renders the number of invocations is
    the number so counted. *)
Theorem onActivate_on_recorded_change :
  (∀ p h w, mount p h = Ok w →
     onActivate_calls (trace (host w)) = onActivate_calls (trace h)
     ∧ activated (node w) = false)
  ∧ (∀ w w', componentDidUpdate w = Ok w' →
       ∃ now rest,
         isActivated (props (node w)) = Ok now
         ∧ let changed :=
             isAnimate (props (node w))
             && negb (eqb now (activated (node w))) in
           trace (host w') =
             trace (host w)
             ++ (if changed && onActivate (props (node w))
                 then [CallOnActivate now] else [])
             ++ rest
           ∧ forallb is_timer_call rest = true
           ∧ activated (node w') =
               (if changed then now else activated (node w)))
  ∧ (∀ p ps w, (w0 ← mount p idle; steps (Update <$> ps) w0) = Ok w →
       onActivate_calls (trace (host w)) = expected_calls false ps).
Proof.
  split; [|split].
  - intros p h w (_ & _ & Hrec & rest & Ht & Hr)%mount_inv.
    split; [|exact Hrec].
    rewrite Ht, onActivate_calls_app. unfold onActivate_calls at 2.
    rewrite (proj1 (timer_calls_quiet rest Hr)). simpl. lia.
  - apply componentDidUpdate_trace.
  - intros p ps w.
    destruct (mount p idle) as [w0|e] eqn:E0; simpl; [|discriminate].
    apply mount_inv in E0 as (_ & _ & Hrec & rest & Ht & Hr).
    intros ->%updates_calls.
    rewrite Hrec, Ht, onActivate_calls_app. unfold onActivate_calls at 2.
    rewrite (proj1 (timer_calls_quiet rest Hr)). reflexivity.
Qed.

Lemma onActivate_on_recorded_change_witness :
  onActivate_calls (trace (host (reached plain_root [Update plain_root]))) = 1
  ∧ onActivate_calls
      (trace (host (reached (still true) [Update (still false)]))) = 0.
Proof.
  split.
  - refine (eq_trans (proj2 (proj2 onActivate_on_recorded_change)
                        plain_root [plain_root] _ _) _); by vm_compute.
  - refine (eq_trans (proj2 (proj2 onActivate_on_recorded_change)
                        (still true) [still false] _ _) _); by vm_compute.
Defined.

(** C4, as the specification has it, fails twice over.  A root that is
    activated when created, and still is at its first re-render, has its
    callback invoked although nothing changed; a root with animation
    switched off whose activation changes is never told. *)
Lemma onActivate_not_once_per_change :
  ¬ once_per_change plain_root [plain_root]
  ∧ ¬ once_per_change (still true) [still false].
Proof.
  split; intros H.
  - specialize (H (reached plain_root [Update plain_root])).
    vm_compute in H. specialize (H eq_refl). discriminate.
  - specialize (H (reached (still true) [Update (still false)])).
    vm_compute in H. specialize (H eq_refl). discriminate.
Qed.

(** * Further properties *)

(** ** Exiting *)

(** The closure scheduled by [exit], whenever it runs. *)
Lemma call_ExitStart (w : World) (a : bool) :
  isActivated (props (node w)) = Ok a → single_slot w →
  ∃ w' h,
    call ExitStart w = Ok w'
    ∧ flowValue (state (node w')) = EXITING
    ∧ props (node w') = props (node w)
    ∧ scheduleTimeout (node w') = Some h
    ∧ timers (host w') = {[ h := (getDurationOut (node w), FlowTo EXITED) ]}.
Proof.
  intros Ha Hslot. unfold call.
  destruct (setFlowValue_total EXITING w a Ha) as [w1 E]. rewrite E.
  apply setFlowValue_inv in E as (Hf & Hp & _ & _ & _ & Hs).
  eexists _, (nextTimer (host w1)). split; [reflexivity|].
  rewrite schedule_node, schedule_single by auto. done.
Qed.

Lemma exit_completes (w : World) (h : nat) (t : jsval) (a : bool) :
  isActivated (props (node w)) = Ok a → single_slot w →
  timers (host w) !! h = Some (t, ExitStart) →
  ∃ w1 h1,
    fire h w = Ok w1
    ∧ flowValue (state (node w1)) = EXITING
    ∧ props (node w1) = props (node w)
    ∧ scheduleTimeout (node w1) = Some h1
    ∧ timers (host w1) = {[ h1 := (getDurationOut (node w), FlowTo EXITED) ]}
    ∧ ∃ w2, fire h1 w1 = Ok w2
            ∧ flowValue (state (node w2)) = EXITED
            ∧ flowHasExited (node w2) = true
            ∧ props (node w2) = props (node w).
Proof.
  intros Ha Hslot Hh. rewrite (fire_pending _ _ _ _ Hh).
  destruct (call_ExitStart (on_host (expire h) w) a)
    as (w1 & h1 & E1 & Hf1 & Hp1 & Hs1 & Ht1);
    [done|by apply single_slot_expire|].
  exists w1, h1. repeat split; try done.
  assert (timers (host w1) !! h1 = Some (getDurationOut (node w), FlowTo EXITED))
    as Hh1.
  { rewrite Ht1. apply lookup_singleton_eq. }
  rewrite (fire_pending _ _ _ _ Hh1). unfold call.
  destruct (setFlowValue_total EXITED (on_host (expire h1) w1) a) as [w2 E2];
    [simpl; by rewrite Hp1|].
  apply setFlowValue_inv in E2 as HH. destruct HH as (Hf2 & Hp2 & _ & _ & Hx2 & _).
  exists w2. repeat split; try done. by rewrite Hp2.
Qed.

(** X1. Outside EXITING and EXITED, [exit] schedules its first step
    after 0, as the only pending timer.  When the step comes due the flow
    value becomes EXITING and the transition to EXITED is scheduled after
    [getDurationOut], read at that moment; when that comes due the flow
    value is EXITED and [hasExited] answers true. *)
Theorem exit_schedules (w : World) (ds : list (option DurationValue))
    (a : bool) :
  let fv := flowValue (state (node w)) in
  let h := nextTimer (host w) in
  let later := foldl (λ c d, updateDuration d c) (node w) ds in
  fv ≠ EXITING → fv ≠ EXITED →
  single_slot w → isActivated (props (node w)) = Ok a →
  node (exit w) = set_scheduleTimeout (Some h) (node w)
  ∧ timers (host (exit w)) = {[ h := (VNum 0, ExitStart) ]}
  ∧ ∃ w1 h1,
      steps ((Override <$> ds) ++ [Fire h]) (exit w) = Ok w1
      ∧ flowValue (state (node w1)) = EXITING
      ∧ timers (host w1) = {[ h1 := (getDurationOut later, FlowTo EXITED) ]}
      ∧ ∃ w2, fire h1 w1 = Ok w2
              ∧ flowValue (state (node w2)) = EXITED
              ∧ hasExited (node w2) = true.
Proof.
  intros fv h later Hn1 Hn2 Hslot Ha.
  assert (exit w = schedule (VNum 0) ExitStart w) as ->.
  { unfold exit. fold fv. rewrite decide_False by tauto. done. }
  assert (timers (host (schedule (VNum 0) ExitStart w)) =
            {[ h := (VNum 0, ExitStart) ]}) as Ht by by apply schedule_single.
  split; [apply schedule_node|]. split; [exact Ht|].
  rewrite steps_app, steps_overrides. simpl.
  set (w0 := on_node _ (schedule (VNum 0) ExitStart w)).
  assert (node w0 = set_scheduleTimeout (Some h) later) as Hn0.
  { unfold w0, on_node. cbn [node]. rewrite schedule_node.
    apply overrides_scheduleTimeout. }
  destruct (exit_completes w0 h (VNum 0) a)
    as (w1 & h1 & E1 & Hf1 & Hp1 & Hs1 & Ht1 & w2 & E2 & Hf2 & Hx2 & _).
  - rewrite Hn0. simpl. unfold later. by rewrite overrides_props.
  - eapply single_slot_same;
      [| |apply (single_slot_schedule (VNum 0) ExitStart w Hslot)].
    + rewrite Hn0, schedule_node. done.
    + done.
  - unfold w0, on_node. cbn [host]. rewrite Ht. apply lookup_singleton_eq.
  - exists w1, h1. rewrite E1. rewrite Hn0 in Ht1. eauto 10.
Qed.

Lemma exit_schedules_witness :
  flowValue (state (node entered_world)) = ENTERED
  ∧ timers (host (exit entered_world)) = {[ 2 := (VNum 0, ExitStart) ]}.
Proof.
  split; [reflexivity|].
  assert (single_slot entered_world) as Hs.
  { apply (bool_decide_unpack _). by vm_compute. }
  destruct (exit_schedules entered_world [] true) as (_ & Ht & _);
    [by vm_compute | by vm_compute | exact Hs | reflexivity |].
  exact Ht.
Defined.

(** X2. While the node is ENTERING or ENTERED with the first step of an
    exit pending, [enter] returns at once; an update that re-activates
    the node therefore leaves that timer pending, and when it and its
    successor come due the node becomes EXITING and then EXITED, though
    it is activated. *)
Theorem enter_keeps_pending_exit (w : World) (h : nat) (t : jsval)
    (p : Props) :
  flowValue (state (node w)) = ENTERING ∨ flowValue (state (node w)) = ENTERED →
  single_slot w →
  timers (host w) !! h = Some (t, ExitStart) →
  isActivated p = Ok true →
  enter w = w
  ∧ ∃ w0,
      step (Update p) w = Ok w0
      ∧ timers (host w0) = timers (host w)
      ∧ flowValue (state (node w0)) = flowValue (state (node w))
      ∧ ∃ w1 h1,
          fire h w0 = Ok w1
          ∧ flowValue (state (node w1)) = EXITING
          ∧ timers (host w1) =
              {[ h1 := (getDurationOut (node w0), FlowTo EXITED) ]}
          ∧ ∃ w2,
              fire h1 w1 = Ok w2
              ∧ flowValue (state (node w2)) = EXITED
              ∧ isActivated (props (node w2)) = Ok true.
Proof.
  intros Hf Hslot Hh Hp.
  split; [by apply enter_idle|].
  set (w' := on_node (set_props p) w).
  assert (∃ w0, componentDidUpdate w' = Ok w0
                ∧ node w0 = set_activated (activated (node w0)) (node w')
                ∧ timers (host w0) = timers (host w)) as (w0 & E0 & Hn0 & Ht0).
  { rewrite componentDidUpdate_unfold. simpl. rewrite Hp. simpl.
    destruct (isAnimate p && _).
    - rewrite enter_idle.
      + eexists; split; [reflexivity|].
        unfold announced; simpl. by destruct (onActivate p).
      + unfold announced; simpl. by destruct (onActivate p).
    - exists w'. repeat split. }
  assert (props (node w0) = p) as Hp0 by by rewrite Hn0.
  exists w0. split; [exact E0|]. split; [exact Ht0|].
  split; [by rewrite Hn0|].
  destruct (exit_completes w0 h t true)
    as (w1 & h1 & E1 & Hf1 & Hp1 & Hs1 & Ht1 & w2 & E2 & Hf2 & _ & Hp2).
  - by rewrite Hp0.
  - revert Hslot. apply single_slot_same; [by rewrite Hn0|by rewrite Ht0].
  - by rewrite Ht0.
  - exists w1, h1. repeat split; try done.
    exists w2. repeat split; try done. by rewrite Hp2, Hp0.
Qed.

Lemma enter_keeps_pending_exit_witness :
  flowValue (state (node leaving_world)) = ENTERED
  ∧ timers (host leaving_world) = {[ 2 := (VNum 0, ExitStart) ]}
  ∧ enter leaving_world = leaving_world
  ∧ ∃ w2, steps [Update plain_root; Fire 2; Fire 3] leaving_world = Ok w2
          ∧ flowValue (state (node w2)) = EXITED
          ∧ isActivated (props (node w2)) = Ok true.
Proof.
  split; [reflexivity|]. split; [by vm_compute|].
  assert (single_slot leaving_world) as Hs.
  { apply (bool_decide_unpack _). by vm_compute. }
  destruct (enter_keeps_pending_exit leaving_world 2 (VNum 0) plain_root)
    as (Hx & _); [by right | exact Hs | by vm_compute | reflexivity |].
  split; [exact Hx|].
  eexists. split; [by vm_compute|]. split; reflexivity.
Defined.

(** ** The published interface *)

Lemma setFlowValue_state (fv : FlowValue) (w w' : World) :
  setFlowValue fv w = Ok w' →
  state (node w') =
    {| flowValue := fv; energyInterface := getEnergyInterface fv |}.
Proof.
  unfold setFlowValue.
  set (w0 := on_node _ (on_host _ w)).
  destruct (componentDidUpdate w0) as [w1|e] eqn:E; simpl; [|discriminate].
  apply componentDidUpdate_frame in E as (_ & Hs & _).
  intros [= <-]. by destruct fv; simpl; rewrite Hs.
Qed.

Lemma call_state (cb : Callback) (w w' : World) :
  call cb w = Ok w' →
  state (node w') =
    {| flowValue := target cb;
       energyInterface := getEnergyInterface (target cb) |}.
Proof.
  destruct cb as [| |fv]; unfold call.
  1,2: destruct (setFlowValue _ w) as [w1|e] eqn:E; [|discriminate];
    intros [= <-]; rewrite schedule_node; simpl;
    by apply setFlowValue_state in E.
  apply setFlowValue_state.
Qed.

Lemma published_step (ev : Event) (w w' : World) :
  step ev w = Ok w' → published (state (node w)) → published (state (node w')).
Proof.
  destruct ev as [p|h|d|]; unfold step.
  - intros (_ & -> & _)%componentDidUpdate_frame. done.
  - unfold fire. destruct (timers (host w) !! h) as [[t cb]|].
    + intros ->%call_state _. reflexivity.
    + by intros [= <-].
  - by intros [= <-].
  - by intros [= <-].
Qed.

Lemma published_reached (p : Props) (evs : list Event) (w : World) :
  (w0 ← mount p idle; steps evs w0) = Ok w → published (state (node w)).
Proof.
  destruct (mount p idle) as [w0|e] eqn:E0; simpl; [|discriminate].
  assert (published (state (node w0))) as H0.
  { unfold mount, componentDidMount in E0. simpl in E0.
    destruct (isActivated p) as [a|e]; simpl in E0; [|discriminate].
    destruct (isAnimate p && a); injection E0 as <-;
      rewrite ?enter_state; reflexivity. }
  clear E0. revert w0 H0. induction evs as [|ev evs IH]; intros w0 H0; simpl.
  - by intros [= <-].
  - destruct (step ev w0) as [w1|e] eqn:E; simpl; [|discriminate].
    apply IH. by eapply published_step.
Qed.

Lemma flow_flags (fv fv' : FlowValue) :
  get (flow (getEnergyInterface fv)) (flow_string fv') =
    (if decide (fv' = fv) then VBool true else VUndefined)
  ∧ get (flow (getEnergyInterface fv)) "value" = VStr (flow_string fv).
Proof. by destruct fv, fv'. Qed.

(** X3. In every state a node reaches from its creation, the interface
    it renders for its descendants is the one built from its current
    flow value: [getFlow] names that value under [value], carries [true]
    under that value's own name, and has no flag for any other value. *)
Theorem rendered_flow_is_current (p : Props) (evs : list Event) (w : World)
    (fv' : FlowValue) :
  (w0 ← mount p idle; steps evs w0) = Ok w →
  let fv := flowValue (state (node w)) in
  render (node w) = getEnergyInterface fv
  ∧ getFlow (node w) = flow (render (node w))
  ∧ get (getFlow (node w)) "value" = VStr (flow_string fv)
  ∧ get (getFlow (node w)) (flow_string fv') =
      (if decide (fv' = fv) then VBool true else VUndefined).
Proof.
  intros Hrun fv. apply published_reached in Hrun.
  unfold getFlow, render. rewrite Hrun. fold fv.
  destruct (flow_flags fv fv') as [H1 H2]. done.
Qed.

Lemma rendered_flow_is_current_witness :
  get (getFlow (node exiting_world)) "exiting" = VBool true
  ∧ get (getFlow (node exiting_world)) "entered" = VUndefined.
Proof.
  split.
  - refine (proj2 (proj2 (proj2
      (rendered_flow_is_current plain_root
         [Fire 0; Fire 1; Update (root_with None (Some false)); Fire 2]
         exiting_world EXITING _)))). by vm_compute.
  - refine (proj2 (proj2 (proj2
      (rendered_flow_is_current plain_root
         [Fire 0; Fire 1; Update (root_with None (Some false)); Fire 2]
         exiting_world ENTERED _)))). by vm_compute.
Defined.

(** ** Parent and child *)

(** X4. A node that is not forced to be a root and reads the interface
    a parent renders is activated, without [merge], exactly while the
    parent is ENTERED, and with [merge], exactly while the parent is
    ENTERING or ENTERED; its own [activate] prop plays no part. *)
Theorem child_follows_parent (p : Props) (evs : list Event) (w : World)
    (child : Props) :
  (w0 ← mount p idle; steps evs w0) = Ok w →
  parentEnergyContext child = Some (render (node w)) →
  root child ≠ Some true →
  let fv := flowValue (state (node w)) in
  isActivated child =
    Ok (if truthy_prop (merge child)
        then bool_decide (fv = ENTERING ∨ fv = ENTERED)
        else bool_decide (fv = ENTERED)).
Proof.
  intros Hrun Hparent Hroot fv. apply published_reached in Hrun.
  unfold isActivated, isRoot. rewrite Hparent.
  assert (match root child with Some r => r | None => false end = false) as ->.
  { destruct (root child) as [[]|]; congruence. }
  unfold render. rewrite Hrun. fold fv.
  destruct (truthy_prop (merge child)), fv; reflexivity.
Qed.

Lemma child_follows_parent_witness :
  isActivated (child_of (render (node entering_world)) None) = Ok false
  ∧ isActivated (child_of (render (node entering_world)) (Some true)) = Ok true.
Proof.
  split.
  - refine (child_follows_parent plain_root [Fire 0] entering_world
              (child_of (render (node entering_world)) None) _ _ _);
      [by vm_compute | reflexivity | discriminate].
  - refine (child_follows_parent plain_root [Fire 0] entering_world
              (child_of (render (node entering_world)) (Some true)) _ _ _);
      [by vm_compute | reflexivity | discriminate].
Defined.

(** ** The transition table *)

Lemma follows_app (from : FlowValue) (l1 l2 : list FlowValue) :
  follows from (l1 ++ l2) = follows from l1 && follows (final from l1) l2.
Proof.
  revert from. induction l1 as [|fv l1 IH]; intros from; simpl; [done|].
  by rewrite IH, andb_assoc.
Qed.

Lemma final_app (from : FlowValue) (l1 l2 : list FlowValue) :
  final from (l1 ++ l2) = final (final from l1) l2.
Proof. revert from. induction l1 as [|fv l1 IH]; intros from; simpl; auto. Qed.

Lemma coherent_same (w w' : World) :
  scheduleTimeout (node w') = scheduleTimeout (node w) →
  flowValue (state (node w')) = flowValue (state (node w)) →
  timers (host w') ⊆ timers (host w) →
  coherent w → coherent w'.
Proof.
  intros Hslot Hf Hsub [H1 H2]. split; [by eapply single_slot_same|].
  intros i x Hi. rewrite Hf. apply (H2 i x). by eapply lookup_weaken.
Qed.

Lemma coherent_empty (w : World) : timers (host w) = ∅ → coherent w.
Proof.
  intros H. unfold coherent, single_slot. rewrite H.
  split; apply map_Forall_empty.
Qed.

Lemma coherent_schedule (t : jsval) (cb : Callback) (w : World) :
  single_slot w → awaits (flowValue (state (node w))) cb = true →
  coherent (schedule t cb w).
Proof.
  intros Hs Ha. split; [by apply single_slot_schedule|].
  rewrite schedule_single, schedule_node by done.
  by apply map_Forall_singleton.
Qed.

Lemma coherent_enter (w : World) : coherent w → coherent (enter w).
Proof.
  intros H. unfold enter. case_decide as Hfv; [done|].
  apply coherent_schedule; [apply H|].
  destruct (flowValue (state (node w))); simpl; tauto.
Qed.

Lemma coherent_exit (w : World) : coherent w → coherent (exit w).
Proof.
  intros H. unfold exit. case_decide as Hfv; [done|].
  apply coherent_schedule; [apply H|].
  destruct (flowValue (state (node w))); simpl; tauto.
Qed.

Lemma coherent_componentDidUpdate (w w' : World) :
  componentDidUpdate w = Ok w' → coherent w → coherent w'.
Proof.
  rewrite componentDidUpdate_unfold.
  destruct (isActivated (props (node w))) as [now|e]; simpl; [|discriminate].
  destruct (isAnimate _ && _); intros [= <-] H; [|done].
  assert (coherent (announced now w)) as Ha.
  { revert H. apply coherent_same; unfold announced; simpl;
      by destruct (onActivate (props (node w))). }
  destruct now; [by apply coherent_enter | by apply coherent_exit].
Qed.

Lemma coherent_setFlowValue (fv : FlowValue) (w w' : World) :
  timers (host w) = ∅ → setFlowValue fv w = Ok w' → coherent w'.
Proof.
  intros Hempty. unfold setFlowValue.
  set (w0 := on_node _ (on_host _ w)).
  destruct (componentDidUpdate w0) as [w1|e] eqn:E; simpl; [|discriminate].
  apply coherent_componentDidUpdate in E; [|by apply coherent_empty].
  intros [= <-]. revert E.
  apply coherent_same; by destruct fv.
Qed.

Lemma single_slot_expire_empty (h : nat) (x : jsval * Callback) (w : World) :
  single_slot w → timers (host w) !! h = Some x →
  timers (host (on_host (expire h) w)) = ∅.
Proof.
  intros Hs Hh. simpl. apply map_eq. intros i. rewrite lookup_empty.
  destruct (delete h (timers (host w)) !! i) as [y|] eqn:Ei; [exfalso|done].
  apply lookup_delete_Some in Ei as [Hne Ei].
  pose proof (Hs _ _ Hh) as H1. pose proof (Hs _ _ Ei) as H2.
  simpl in H1, H2. congruence.
Qed.

(** One event keeps the pending timer fitting the flow value and moves
    the flow value along the table. *)
Lemma step_coherent (ev : Event) (w w' : World) :
  step ev w = Ok w' → coherent w →
  coherent w'
  ∧ ∃ fvs,
      transitions (trace (host w')) = transitions (trace (host w)) ++ fvs
      ∧ follows (flowValue (state (node w))) fvs = true
      ∧ flowValue (state (node w')) = final (flowValue (state (node w))) fvs.
Proof.
  destruct ev as [p|h|d|]; unfold step.
  - intros E H.
    pose proof (componentDidUpdate_transitions _ _ E) as Ht.
    pose proof (componentDidUpdate_frame _ _ E) as (_ & Hs & _).
    split.
    + apply (coherent_componentDidUpdate _ _ E). revert H.
      by apply coherent_same.
    + exists []. rewrite app_nil_r, Hs. done.
  - unfold fire. destruct (timers (host w) !! h) as [[t cb]|] eqn:Hh.
    + intros E [Hs Hfit].
      pose proof (Hfit _ _ Hh) as Hcb. simpl in Hcb.
      pose proof (single_slot_expire_empty _ _ _ Hs Hh) as Hempty.
      pose proof (call_state _ _ _ E) as Hstate.
      pose proof (call_inv _ _ _ E) as (fv & Hfv & _ & _ & _ & _ & Ht & _).
      assert (fv = target cb) as -> by (by rewrite <- Hfv, Hstate).
      assert (allowed (flowValue (state (node w))) (target cb) = true) as Hal.
      { destruct cb as [| |[]]; done. }
      split.
      * destruct cb as [| |fv]; unfold call in E.
        1,2: destruct (setFlowValue _ _) as [w1|e] eqn:E1; [|discriminate];
          injection E as <-;
          pose proof (setFlowValue_inv _ _ _ E1) as (Hf1 & _);
          apply coherent_setFlowValue in E1; [|done];
          apply coherent_schedule; [apply E1|by rewrite Hf1].
        by apply coherent_setFlowValue in E.
      * exists [target cb]. rewrite Hstate. simpl.
        by rewrite Hal.
    + intros [= <-] H. split; [done|]. exists []. by rewrite app_nil_r.
  - intros [= <-] H. split; [revert H; by apply coherent_same|].
    exists []. simpl. by rewrite app_nil_r.
  - intros [= <-] [Hs Hfit]. split.
    + apply coherent_empty. by apply single_slot_unschedule.
    + exists []. unfold componentWillUnmount.
      rewrite unschedule_trace, unschedule_node, transitions_app. done.
Qed.

Lemma steps_coherent (evs : list Event) (w w' : World) :
  steps evs w = Ok w' → coherent w →
  coherent w'
  ∧ ∃ fvs,
      transitions (trace (host w')) = transitions (trace (host w)) ++ fvs
      ∧ follows (flowValue (state (node w))) fvs = true
      ∧ flowValue (state (node w')) = final (flowValue (state (node w))) fvs.
Proof.
  revert w. induction evs as [|ev evs IH]; intros w; simpl.
  - intros [= <-] H. split; [done|]. exists []. by rewrite app_nil_r.
  - destruct (step ev w) as [w1|e] eqn:E; simpl; [|discriminate].
    intros E' H.
    apply step_coherent in E as (H1 & fvs1 & Ht1 & Hf1 & Hl1); [|done].
    apply IH in E' as (H2 & fvs2 & Ht2 & Hf2 & Hl2); [|done].
    split; [done|]. exists (fvs1 ++ fvs2).
    rewrite Ht2, Ht1, <- app_assoc, follows_app, final_app, Hf1, <- Hl1, Hf2.
    done.
Qed.

Lemma mount_coherent (p : Props) (w : World) :
  mount p idle = Ok w →
  coherent w
  ∧ flowValue (state (node w)) = flowValue (getInitialState p)
  ∧ transitions (trace (host w)) = [].
Proof.
  intros E. pose proof (mount_inv _ _ _ E) as (_ & _ & _ & rest & Ht & Hr).
  rewrite Ht, transitions_app, (proj2 (timer_calls_quiet rest Hr)).
  unfold mount, componentDidMount in E. simpl in E.
  destruct (isActivated p) as [a|e]; simpl in E; [|discriminate].
  assert (coherent {| node := constructor p; host := idle |}) as Hc
    by by apply coherent_empty.
  destruct (isAnimate p && a); injection E as <-.
  - rewrite enter_state. split; [by apply coherent_enter|done].
  - done.
Qed.

(** ** Lifecycle markers *)

Lemma final_elem (from : FlowValue) (fvs : list FlowValue) :
  fvs ≠ [] → final from fvs ∈ fvs.
Proof.
  revert from. induction fvs as [|fv fvs IH]; intros from Hne; [done|].
  simpl. destruct fvs as [|fv' fvs].
  - apply list_elem_of_here.
  - apply list_elem_of_further, IH. done.
Qed.

(** C7. In every state a node reaches from its creation, the flow values
    committed so far lead from the initial flow value to the current one;
    [hasEntered] answers true exactly when one of them is ENTERED and
    [hasExited] exactly when one of them is EXITED, so a node that a
    transition has brought to ENTERED (EXITED) has its marker set; and
    whatever happens afterwards, a marker that is true stays true. *)
Theorem markers_sticky (p : Props) (evs evs' : list Event) (w w' : World) :
  (w0 ← mount p idle; steps evs w0) = Ok w →
  steps evs' w = Ok w' →
  let history := transitions (trace (host w)) in
  flowValue (state (node w)) = final (flowValue (getInitialState p)) history
  ∧ (hasEntered (node w) = true ↔ ENTERED ∈ history)
  ∧ (hasExited (node w) = true ↔ EXITED ∈ history)
  ∧ (history ≠ [] → flowValue (state (node w)) = ENTERED →
     hasEntered (node w) = true)
  ∧ (history ≠ [] → flowValue (state (node w)) = EXITED →
     hasExited (node w) = true)
  ∧ (hasEntered (node w) = true → hasEntered (node w') = true)
  ∧ (hasExited (node w) = true → hasExited (node w') = true).
Proof.
  intros Hrun Hlater history.
  assert (flowValue (state (node w)) =
            final (flowValue (getInitialState p)) history) as Hflow.
  { unfold history. clear Hlater.
    destruct (mount p idle) as [w0|e] eqn:E0; [|discriminate].
    apply mount_coherent in E0 as (H0 & Hf0 & Ht0).
    apply steps_coherent in Hrun as (_ & fvs & Ht & _ & Hl); [|done].
    by rewrite Ht, Ht0, app_nil_l, <- Hf0. }
  assert ((flowHasEntered (node w) = true ↔ ENTERED ∈ history)
          ∧ (flowHasExited (node w) = true ↔ EXITED ∈ history)) as [He Hx].
  { unfold history.
    destruct (mount p idle) as [w0|e] eqn:E0; [|discriminate].
    apply mount_inv in E0 as (He0 & Hx0 & _ & rest & Ht0 & Hr).
    apply steps_inv in Hrun as (fvs & Ht & He & Hx & _).
    rewrite Ht, Ht0, transitions_app, (proj2 (timer_calls_quiet rest Hr)).
    rewrite He, Hx, He0, Hx0. simpl. by rewrite !bool_decide_eq_true. }
  apply steps_inv in Hlater as (fvs' & _ & He' & Hx' & _).
  unfold hasEntered, hasExited.
  split; [exact Hflow|]. split; [exact He|]. split; [exact Hx|].
  split; [|split; [|split]].
  - intros Hne Hf. apply He. rewrite <- Hf, Hflow. by apply final_elem.
  - intros Hne Hf. apply Hx. rewrite <- Hf, Hflow. by apply final_elem.
  - intros H. by rewrite He', H.
  - intros H. by rewrite Hx', H.
Qed.

Lemma markers_sticky_witness :
  flowValue (state (node entered_world)) = ENTERED
  ∧ hasEntered (node entered_world) = true
  ∧ hasEntered
      (node (reached plain_root
               [Fire 0; Fire 1; Update (root_with None (Some false));
                Fire 2; Fire 3])) = true.
Proof.
  destruct (markers_sticky plain_root [Fire 0; Fire 1]
              [Update (root_with None (Some false)); Fire 2; Fire 3]
              entered_world
              (reached plain_root
                 [Fire 0; Fire 1; Update (root_with None (Some false));
                  Fire 2; Fire 3]))
    as (Hflow & _ & _ & Hset & _ & Hkeep & _); [by vm_compute..|].
  assert (hasEntered (node entered_world) = true) as He.
  { apply Hset; [by vm_compute | reflexivity]. }
  split; [reflexivity|]. split; [exact He|]. exact (Hkeep He).
Defined.

(** X5. The flow values a node commits, from its creation on, follow
    the transition table: ENTERING comes only after EXITED or EXITING,
    ENTERED only after ENTERING, EXITING only after ENTERING or ENTERED,
    EXITED only after EXITING; the history starts from the initial flow
    value and ends at the current one. *)
Theorem flow_follows_table (p : Props) (evs : list Event) (w : World) :
  (w0 ← mount p idle; steps evs w0) = Ok w →
  let history := transitions (trace (host w)) in
  follows (flowValue (getInitialState p)) history = true
  ∧ flowValue (state (node w)) = final (flowValue (getInitialState p)) history.
Proof.
  intros Hrun history. unfold history. clear history.
  destruct (mount p idle) as [w0|e] eqn:E0; [|discriminate].
  apply mount_coherent in E0 as (H0 & Hf0 & Ht0).
  apply steps_coherent in Hrun as (_ & fvs & Ht & Hf & Hl); [|done].
  rewrite Ht, Ht0, app_nil_l, <- Hf0. done.
Qed.

Lemma flow_follows_table_witness :
  transitions (trace (host exiting_world)) = [ENTERING; ENTERED; EXITING]
  ∧ follows EXITED (transitions (trace (host exiting_world))) = true.
Proof.
  split; [by vm_compute|].
  refine (proj1 (flow_follows_table plain_root
            [Fire 0; Fire 1; Update (root_with None (Some false)); Fire 2]
            exiting_world _)).
  by vm_compute.
Defined.

(** ** The pending timer *)

Lemma coherent_reached (p : Props) (evs : list Event) (w : World) :
  (w0 ← mount p idle; steps evs w0) = Ok w → coherent w.
Proof.
  destruct (mount p idle) as [w0|e] eqn:E0; simpl; [|discriminate].
  apply mount_coherent in E0 as (H0 & _).
  by intros (H & _)%steps_coherent.
Qed.

Lemma single_slot_size (w : World) :
  single_slot w → size (timers (host w)) ≤ 1.
Proof.
  intros Hs. destruct (map_choose_or_empty (timers (host w)))
    as [(i & x & Hi) | ->]; [|by rewrite map_size_empty; lia].
  assert (timers (host w) = {[ i := x ]}) as ->.
  { apply map_eq. intros k. destruct (decide (k = i)) as [->|Hne].
    - by rewrite lookup_singleton_eq.
    - rewrite lookup_singleton_ne by done.
      destruct (timers (host w) !! k) as [y|] eqn:Hk; [exfalso|done].
      pose proof (Hs _ _ Hi) as H1. pose proof (Hs _ _ Hk) as H2.
      simpl in H1, H2. congruence. }
  by rewrite map_size_singleton.
Qed.

(** X6. In every state a node reaches from its creation at most one of
    its timers is pending; the slot holds its handle, and its closure
    fits the flow value: the first step of an entry waits only in EXITED
    or EXITING, the first step of an exit only in ENTERING or ENTERED,
    the completion of an entry only in ENTERING, the completion of an
    exit only in EXITING. *)
Theorem one_fitting_timer (p : Props) (evs : list Event) (w : World)
    (h : nat) (t : jsval) (cb : Callback) :
  (w0 ← mount p idle; steps evs w0) = Ok w →
  size (timers (host w)) ≤ 1
  ∧ (timers (host w) !! h = Some (t, cb) →
     scheduleTimeout (node w) = Some h
     ∧ awaits (flowValue (state (node w))) cb = true).
Proof.
  intros [Hs Hfit]%coherent_reached.
  split; [by apply single_slot_size|].
  intros Hh. split; [apply (Hs _ _ Hh) | apply (Hfit _ _ Hh)].
Qed.

Lemma one_fitting_timer_witness :
  size (timers (host exiting_world)) ≤ 1
  ∧ scheduleTimeout (node exiting_world) = Some 3
  ∧ awaits (flowValue (state (node exiting_world))) (FlowTo EXITED) = true.
Proof.
  destruct (one_fitting_timer plain_root
              [Fire 0; Fire 1; Update (root_with None (Some false)); Fire 2]
              exiting_world 3 (VNum 200) (FlowTo EXITED))
    as [Hsize Hpending]; [by vm_compute|].
  split; [exact Hsize|]. apply Hpending. by vm_compute.
Defined.

(** ** Teardown *)

Lemma fires_idle (hs : list nat) (w : World) :
  timers (host w) = ∅ → steps (Fire <$> hs) w = Ok w.
Proof.
  intros Hempty. induction hs as [|h hs IH]; simpl; [done|].
  unfold fire. by rewrite Hempty, lookup_empty.
Qed.

(** X7. Unmounting a node, in whatever state it has reached, leaves none
    of its timers pending and changes nothing of the node; timers that
    come due afterwards do nothing. *)
Theorem unmount_cancels (p : Props) (evs : list Event) (w : World)
    (hs : list nat) :
  (w0 ← mount p idle; steps evs w0) = Ok w →
  timers (host (componentWillUnmount w)) = ∅
  ∧ node (componentWillUnmount w) = node w
  ∧ steps (Unmount :: (Fire <$> hs)) w = Ok (componentWillUnmount w).
Proof.
  intros Hs%single_slot_reached.
  assert (timers (host (componentWillUnmount w)) = ∅) as Hempty
    by by apply single_slot_unschedule.
  split; [exact Hempty|]. split; [reflexivity|].
  simpl. by apply fires_idle.
Qed.

Lemma unmount_cancels_witness :
  timers (host exiting_world) = {[ 3 := (VNum 200, FlowTo EXITED) ]}
  ∧ ∃ w, steps [Unmount; Fire 3] exiting_world = Ok w
         ∧ flowValue (state (node w)) = EXITING
         ∧ hasExited (node w) = false.
Proof.
  split; [by vm_compute|].
  exists (componentWillUnmount exiting_world). split; [|by vm_compute].
  refine (proj2 (proj2 (unmount_cancels plain_root
            [Fire 0; Fire 1; Update (root_with None (Some false)); Fire 2]
            exiting_world [3] _))).
  by vm_compute.
Defined.

(** ** Animation switched off *)

Lemma trace_emit_clear (slot : option nat) (tr : list Effect) :
  forallb is_clearTimeout tr = true →
  forallb is_clearTimeout (tr ++ [CallClearTimeout slot]) = true.
Proof. intros H. by rewrite forallb_app, H. Qed.

(** X8. A node for which animation is off at creation and at every
    re-render never sets a timer, never calls [setState] and never
    invokes [onActivate], whatever its activation does: it stays ENTERED,
    and [hasEntered] and [hasExited] stay false. *)
Theorem animation_off_is_inert (p : Props) (evs : list Event) (w : World) :
  isAnimate p = false →
  updates_with (λ p, negb (isAnimate p)) evs = true →
  (w0 ← mount p idle; steps evs w0) = Ok w →
  flowValue (state (node w)) = ENTERED
  ∧ timers (host w) = ∅
  ∧ forallb is_clearTimeout (trace (host w)) = true
  ∧ hasEntered (node w) = false
  ∧ hasExited (node w) = false.
Proof.
  intros Hp Hevs.
  destruct (mount p idle) as [w0|e] eqn:E0; simpl; [|discriminate].
  assert (isAnimate (props (node w0)) = false
          ∧ flowValue (state (node w0)) = ENTERED
          ∧ timers (host w0) = ∅
          ∧ forallb is_clearTimeout (trace (host w0)) = true
          ∧ flowHasEntered (node w0) = false
          ∧ flowHasExited (node w0) = false) as H0.
  { unfold mount, componentDidMount in E0. simpl in E0.
    destruct (isActivated p) as [a|e]; simpl in E0; [|discriminate].
    rewrite Hp in E0. injection E0 as <-. simpl. by rewrite Hp. }
  clear E0. revert w0 H0.
  induction evs as [|ev evs IH]; intros w0 H0; simpl.
  - intros [= <-]. tauto.
  - simpl in Hevs. apply andb_prop in Hevs as [Hev Hevs].
    destruct (step ev w0) as [w1|e] eqn:E; simpl; [|discriminate].
    apply IH; [done|]. clear IH.
    destruct H0 as (Ha & Hf & Ht & Htr & He & Hx).
    destruct ev as [q|h|d|]; unfold step in E.
    + simpl in Hev. apply negb_true_iff in Hev.
      rewrite componentDidUpdate_unfold in E. simpl in E.
      destruct (isActivated q) as [now|e]; simpl in E; [|discriminate].
      rewrite Hev in E. injection E as <-. simpl. tauto.
    + unfold fire in E. rewrite Ht, lookup_empty in E. injection E as <-.
      tauto.
    + injection E as <-. simpl. tauto.
    + injection E as <-. unfold componentWillUnmount.
      rewrite unschedule_node, unschedule_timers, unschedule_trace, Ht.
      repeat split; try done.
      * by destruct (scheduleTimeout (node w0)).
      * by apply trace_emit_clear.
Qed.

Lemma animation_off_is_inert_witness :
  flowValue (state (node (reached (still true)
                            [Update (still false); Fire 0; Unmount])))
    = ENTERED.
Proof.
  refine (proj1 (animation_off_is_inert (still true)
            [Update (still false); Fire 0; Unmount] _ _ _ _));
    by vm_compute.
Defined.

(** ** Failure *)

Lemma isActivated_orphaned (p : Props) :
  isActivated p = Throw TypeError ↔ orphaned p = true.
Proof.
  unfold isActivated, isRoot, orphaned.
  destruct (root p) as [[]|], (parentEnergyContext p) as [parent|],
    (activate p), (truthy_prop (merge p)); simpl; split; done.
Qed.

Lemma isActivated_nested (p : Props) :
  orphaned p = false → ∃ a, isActivated p = Ok a.
Proof.
  intros H. destruct (isActivated p) as [a|[]] eqn:E; [eauto|].
  apply isActivated_orphaned in E. congruence.
Qed.

Lemma step_total (ev : Event) (w : World) :
  orphaned (props (node w)) = false →
  from_option (λ q, negb (orphaned q)) true (event_props ev) = true →
  ∃ w', step ev w = Ok w' ∧ orphaned (props (node w')) = false.
Proof.
  intros Hw Hev. destruct ev as [q|h|d|]; unfold step.
  - simpl in Hev. apply negb_true_iff in Hev.
    destruct (isActivated_nested q Hev) as [a Ha].
    destruct (componentDidUpdate_total (on_node (set_props q) w) a Ha)
      as [w' E].
    exists w'. split; [done|].
    apply componentDidUpdate_frame in E as (-> & _). done.
  - unfold fire. destruct (timers (host w) !! h) as [[t cb]|]; [|eauto].
    destruct (isActivated_nested _ Hw) as [a Ha].
    assert (∃ w', call cb (on_host (expire h) w) = Ok w') as [w' E].
    { destruct cb as [| |fv]; unfold call.
      - destruct (setFlowValue_total ENTERING (on_host (expire h) w) a Ha)
          as [w1 ->]. simpl. eauto.
      - destruct (setFlowValue_total EXITING (on_host (expire h) w) a Ha)
          as [w1 ->]. simpl. eauto.
      - by apply (setFlowValue_total _ _ a). }
    exists w'. split; [done|].
    apply call_inv in E as (_ & _ & -> & _). done.
  - eauto.
  - eauto.
Qed.

(** X9. The activation evaluator fails, with a TypeError, exactly on
    props that declare the node non-root and bring no parent context;
    a node created and re-rendered with any other props goes through
    every sequence of re-renders, timers, overrides and teardown without
    failing. *)
Theorem fails_only_when_orphaned (p : Props) (evs : list Event) :
  (isActivated p = Throw TypeError ↔ orphaned p = true)
  ∧ (orphaned p = false →
     updates_with (λ q, negb (orphaned q)) evs = true →
     ∃ w, (w0 ← mount p idle; steps evs w0) = Ok w).
Proof.
  split; [apply isActivated_orphaned|].
  intros Hp Hevs.
  destruct (isActivated_nested p Hp) as [a Ha].
  assert (∃ w0, mount p idle = Ok w0 ∧ orphaned (props (node w0)) = false)
    as (w0 & -> & H0).
  { unfold mount, componentDidMount. simpl. rewrite Ha. simpl.
    destruct (isAnimate p && a); eexists; (split; [reflexivity|]); [|done].
    destruct (enter_cases {| node := constructor p; host := idle |})
      as [-> | [t ->]]; [done|]. by rewrite schedule_node. }
  simpl. revert w0 H0. induction evs as [|ev evs IH]; intros w0 H0; simpl.
  - eauto.
  - simpl in Hevs. apply andb_prop in Hevs as [Hev Hevs].
    destruct (step_total ev w0 H0 Hev) as (w1 & -> & H1). simpl.
    by apply IH.
Qed.

Lemma fails_only_when_orphaned_witness :
  isActivated orphan = Throw TypeError
  ∧ ∃ w, (w0 ← mount plain_root idle;
          steps [Fire 0; Update (root_with None (Some false)); Fire 1;
                 Override (Some (DurNumber 5)); Unmount] w0) = Ok w.
Proof.
  split.
  - apply (proj1 (fails_only_when_orphaned orphan [])). reflexivity.
  - apply (proj2 (fails_only_when_orphaned plain_root
                    [Fire 0; Update (root_with None (Some false)); Fire 1;
                     Override (Some (DurNumber 5)); Unmount]));
      reflexivity.
Defined.

(** ** Resolved durations as numbers *)





(** X11. A layer that carries a property whose value is [undefined]
    hides the layers below it: the resolved value is [undefined], not the
    lower layers' value.  For the delay this makes [getDurationIn] NaN
    whenever the resolved enter is not a string. *)
Theorem undefined_hides_lower_layers (this : Component) (o : obj)
    (k : string) :
  o !! k = Some VUndefined →
  let this' := updateDuration (Some (DurShape o)) this in
  get (getDuration this') k = VUndefined
  ∧ (k = "delay" →
     (∀ s, get (getDuration this') "enter" ≠ VStr s) →
     getDurationIn this' = SumNaN).
Proof.
  intros Ho this'.
  assert (get (getDuration this') k = VUndefined) as Hk.
  { unfold get, getDuration, this'. rewrite lookup_spread. simpl.
    by rewrite Ho. }
  split; [exact Hk|].
  intros -> Hs. unfold getDurationIn. rewrite Hk.
  destruct (get (getDuration this') "enter") as [|b|n|s] eqn:E;
    [done..|]. by destruct (Hs s).
Qed.

Lemma undefined_hides_lower_layers_witness :
  get (getDuration
         (updateDuration (Some (DurShape {[ "delay" := VUndefined ]}))
            (node waiting_world))) "delay" = VUndefined
  ∧ get (getDuration (node waiting_world)) "delay" = VNum 300.
Proof.
  split; [|reflexivity].
  apply (undefined_hides_lower_layers (node waiting_world)
           {[ "delay" := VUndefined ]} "delay").
  reflexivity.
Defined.

(** ** What the user's callback is told *)

Lemma reports_app (tr1 tr2 : list Effect) :
  reports (tr1 ++ tr2) = reports tr1 ++ reports tr2.
Proof. apply omap_app. Qed.

Lemma timer_calls_no_reports (tr : list Effect) :
  forallb is_timer_call tr = true → reports tr = [].
Proof.
  induction tr as [|e tr IH]; simpl; [done|].
  intros [He Htr]%andb_prop. unfold reports in *.
  destruct e; try discriminate; simpl; by apply IH.
Qed.

Lemma componentDidUpdate_reports (w w' : World) :
  componentDidUpdate w = Ok w' →
  ∃ now,
    isActivated (props (node w)) = Ok now
    ∧ let changed :=
        isAnimate (props (node w)) && negb (eqb now (activated (node w))) in
      reports (trace (host w')) =
        reports (trace (host w))
        ++ (if changed && onActivate (props (node w)) then [now] else [])
      ∧ activated (node w') = (if changed then now else activated (node w)).
Proof.
  intros (now & rest & Ha & Ht & Hr & Hrec)%componentDidUpdate_trace.
  exists now. split; [done|]. split; [|done].
  rewrite Ht, !reports_app, (timer_calls_no_reports rest Hr), app_nil_r.
  by destruct (_ && onActivate _).
Qed.

Lemma setFlowValue_reports (fv : FlowValue) (w w' : World) :
  setFlowValue fv w = Ok w' →
  ∃ now,
    isActivated (props (node w)) = Ok now
    ∧ let changed :=
        isAnimate (props (node w)) && negb (eqb now (activated (node w))) in
      reports (trace (host w')) =
        reports (trace (host w))
        ++ (if changed && onActivate (props (node w)) then [now] else [])
      ∧ activated (node w') = (if changed then now else activated (node w)).
Proof.
  unfold setFlowValue.
  set (w0 := on_node _ (on_host _ w)).
  destruct (componentDidUpdate w0) as [w1|e] eqn:E; simpl; [|discriminate].
  apply componentDidUpdate_reports in E as (now & Ha & Hr & Hrec).
  intros [= <-]. exists now. split; [exact Ha|].
  assert (reports (trace (host w0)) = reports (trace (host w))) as Hw0.
  { unfold w0. simpl. by rewrite reports_app, app_nil_r. }
  rewrite Hw0 in Hr. simpl in Hr, Hrec.
  split; [|by destruct fv]. rewrite <- Hr. by destruct fv.
Qed.

Lemma call_reports (cb : Callback) (w w' : World) :
  call cb w = Ok w' →
  ∃ now,
    isActivated (props (node w)) = Ok now
    ∧ let changed :=
        isAnimate (props (node w)) && negb (eqb now (activated (node w))) in
      reports (trace (host w')) =
        reports (trace (host w))
        ++ (if changed && onActivate (props (node w)) then [now] else [])
      ∧ activated (node w') = (if changed then now else activated (node w)).
Proof.
  destruct cb as [| |fv]; unfold call.
  1,2: destruct (setFlowValue _ w) as [w1|e] eqn:E; [|discriminate];
    intros [= <-];
    apply setFlowValue_reports in E as (now & Ha & Hr & Hrec);
    exists now; (split; [exact Ha|]);
    rewrite schedule_node, schedule_trace, reports_app, app_nil_r;
    by split.
  apply setFlowValue_reports.
Qed.

Lemma alternates_snoc (previous b : bool) (bs : list bool) :
  alternates previous (bs ++ [b]) =
    alternates previous bs && negb (eqb b (default previous (last bs))).
Proof.
  revert previous. induction bs as [|x bs IH]; intros previous; simpl.
  - by rewrite andb_true_r.
  - rewrite IH, andb_assoc, (last_cons x bs). by destruct (last bs).
Qed.

(** One event, for a node whose props supply the callback: a report is
    made exactly when the recorded activation changes, and it is the new
    recorded value. *)
Lemma step_reports (ev : Event) (w w' : World) :
  step ev w = Ok w' →
  onActivate (props (node w')) = true →
  props (node w') = from_option id (props (node w)) (event_props ev)
  ∧ reports (trace (host w')) =
      reports (trace (host w))
      ++ (if eqb (activated (node w')) (activated (node w)) then []
          else [activated (node w')]).
Proof.
  assert (∀ (q : Props) (recorded now : bool) (tr tr' : list bool)
            (recorded' : bool),
    onActivate q = true →
    tr' = tr ++ (if isAnimate q && negb (eqb now recorded) && onActivate q
                 then [now] else []) →
    recorded' = (if isAnimate q && negb (eqb now recorded)
                 then now else recorded) →
    tr' = tr ++ (if eqb recorded' recorded then [] else [recorded'])) as Hcase.
  { intros q recorded now tr tr' recorded' -> -> ->.
    by destruct (isAnimate q), now, recorded. }
  destruct ev as [q|h|d|]; unfold step.
  - intros E Hq.
    pose proof (componentDidUpdate_frame _ _ E) as (Hp & _).
    apply componentDidUpdate_reports in E as (now & _ & Hr & Hrec).
    simpl in *. split; [done|]. rewrite Hp in Hq.
    by eapply Hcase.
  - unfold fire. destruct (timers (host w) !! h) as [[t cb]|].
    + intros E Hq.
      pose proof (call_inv _ _ _ E) as (_ & _ & Hp & _).
      apply call_reports in E as (now & _ & Hr & Hrec).
      simpl in *. split; [done|]. rewrite Hp in Hq.
      by eapply Hcase.
    + intros [= <-] _. simpl. by rewrite eqb_reflx, app_nil_r.
  - intros [= <-] _. simpl. by rewrite eqb_reflx, app_nil_r.
  - intros [= <-] _. unfold componentWillUnmount.
    rewrite unschedule_node, unschedule_trace, reports_app. simpl.
    by rewrite eqb_reflx.
Qed.

(** X12. For a node whose props always supply [onActivate], the values
    the callback is told alternate, beginning with [true], and the last
    one told is the activation the node has recorded: the callback is
    never told the same value twice in a row. *)
Theorem onActivate_alternates (p : Props) (evs : list Event) (w : World) :
  onActivate p = true →
  updates_with onActivate evs = true →
  (w0 ← mount p idle; steps evs w0) = Ok w →
  alternates false (reports (trace (host w))) = true
  ∧ activated (node w) = default false (last (reports (trace (host w)))).
Proof.
  intros Hp Hevs.
  destruct (mount p idle) as [w0|e] eqn:E0; simpl; [|discriminate].
  assert (onActivate (props (node w0)) = true
          ∧ alternates false (reports (trace (host w0))) = true
          ∧ activated (node w0) =
              default false (last (reports (trace (host w0))))) as H0.
  { pose proof (mount_inv _ _ _ E0) as (_ & _ & Hrec & rest & Ht & Hr).
    rewrite Ht, Hrec, reports_app, (timer_calls_no_reports rest Hr).
    unfold mount, componentDidMount in E0. simpl in E0.
    destruct (isActivated p) as [a|e]; simpl in E0; [|discriminate].
    destruct (isAnimate p && a); injection E0 as <-.
    - destruct (enter_cases {| node := constructor p; host := idle |})
        as [-> | [t ->]]; rewrite ?schedule_node; done.
    - done. }
  clear E0. revert w0 H0.
  induction evs as [|ev evs IH]; intros w0 (Hq & Halt & Hlast); simpl.
  - intros [= <-]. done.
  - simpl in Hevs. apply andb_prop in Hevs as [Hev Hevs].
    destruct (step ev w0) as [w1|e] eqn:E; simpl; [|discriminate].
    apply IH; [done|]. clear IH.
    assert (onActivate (props (node w1)) = true) as Hq1.
    { destruct ev as [q|h|d|]; unfold step in E.
      - apply componentDidUpdate_frame in E as (-> & _). done.
      - unfold fire in E. destruct (timers (host w0) !! h) as [[t cb]|].
        + apply call_inv in E as (_ & _ & -> & _). done.
        + by injection E as <-.
      - by injection E as <-.
      - by injection E as <-. }
    destruct (step_reports _ _ _ E Hq1) as (_ & Hr).
    split; [done|]. rewrite Hr.
    destruct (eqb (activated (node w1)) (activated (node w0))) eqn:Heq.
    + rewrite app_nil_r. split; [done|].
      apply eqb_prop in Heq. congruence.
    + rewrite alternates_snoc, last_snoc, Halt, <- Hlast, Heq. done.
Qed.

Lemma onActivate_alternates_witness :
  reports (trace (host exiting_world)) = [true; false]
  ∧ alternates false (reports (trace (host exiting_world))) = true.
Proof.
  split; [by vm_compute|].
  refine (proj1 (onActivate_alternates plain_root
            [Fire 0; Fire 1; Update (root_with None (Some false)); Fire 2]
            exiting_world _ _ _)); by vm_compute.
Defined.

(** ** From creation to ENTERED *)

Lemma componentDidUpdate_same (w : World) (now : bool) :
  isActivated (props (node w)) = Ok now →
  isAnimate (props (node w)) && negb (eqb now (activated (node w))) = false →
  componentDidUpdate w = Ok w.
Proof.
  intros Ha Hc. rewrite componentDidUpdate_unfold, Ha. simpl. by rewrite Hc.
Qed.

(** X13. A node created animated and activated, on a fresh host, has one
    timer pending, due after the resolved delay; when it comes due the
    node is ENTERING with one timer pending, due after the resolved
    enter; when that comes due the node is ENTERED, [hasEntered] answers
    true and no timer is left.  Along the way the recorded activation
    becomes true and the callback, if supplied, is told [true] once. *)
Theorem mount_enters (p : Props) :
  isAnimate p = true → isActivated p = Ok true →
  ∃ w0 w1 h1 w2,
    mount p idle = Ok w0
    ∧ flowValue (state (node w0)) = EXITED
    ∧ timers (host w0) =
        {[ 0 := (get (getDuration (constructor p)) "delay", EnterStart) ]}
    ∧ fire 0 w0 = Ok w1
    ∧ flowValue (state (node w1)) = ENTERING
    ∧ timers (host w1) =
        {[ h1 := (get (getDuration (constructor p)) "enter", FlowTo ENTERED) ]}
    ∧ fire h1 w1 = Ok w2
    ∧ flowValue (state (node w2)) = ENTERED
    ∧ hasEntered (node w2) = true
    ∧ timers (host w2) = ∅
    ∧ activated (node w2) = true
    ∧ reports (trace (host w2)) = (if onActivate p then [true] else []).
Proof.
  intros Hanim Hact.
  set (W := {| node := constructor p; host := idle |}).
  set (delay := get (getDuration (constructor p)) "delay").
  assert (flowValue (state (node W)) = EXITED) as HfW.
  { simpl. by rewrite Hanim. }
  assert (single_slot W) as HsW by apply map_Forall_empty.
  assert (enter W = schedule delay EnterStart W) as Henter.
  { unfold enter. rewrite HfW.
    rewrite decide_False by (intros [|]; discriminate).
    by rewrite decide_True. }
  assert (mount p idle = Ok (schedule delay EnterStart W)) as Hmount.
  { unfold mount, componentDidMount. fold W. rewrite <- Henter.
    change (props (node W)) with p. rewrite Hact, Hanim. done. }
  set (w0 := schedule delay EnterStart W) in *.
  assert (node w0 = set_scheduleTimeout (Some 0) (constructor p)) as Hn0
    by apply schedule_node.
  assert (timers (host w0) = {[ 0 := (delay, EnterStart) ]}) as Ht0
    by by apply schedule_single.
  assert (reports (trace (host w0)) = []) as Hr0.
  { unfold w0. by rewrite schedule_trace. }
  assert (timers (host w0) !! 0 = Some (delay, EnterStart)) as Hh0.
  { rewrite Ht0. apply lookup_singleton_eq. }
  assert (single_slot w0) as Hs0 by by apply single_slot_schedule.
  clearbody w0.
  destruct (entry_completes w0 0 delay true)
    as (w1 & h1 & E1 & Hf1 & Hp1 & Hs1 & Ht1 & w2 & E2 & Hf2 & Hp2);
    [by rewrite Hn0 | exact Hs0 | done |].
  exists w0, w1, h1, w2.
  (* the first step: the update it triggers records the activation *)
  pose proof E1 as C1. rewrite (fire_pending _ _ _ _ Hh0) in C1.
  apply call_reports in C1 as (now1 & Ha1 & Hr1 & Hrec1).
  simpl in Ha1, Hr1, Hrec1. rewrite Hn0 in Ha1, Hr1, Hrec1.
  simpl in Ha1, Hr1, Hrec1. rewrite Hact in Ha1. injection Ha1 as <-.
  rewrite Hanim, Hr0 in Hr1. rewrite Hanim in Hrec1. simpl in Hr1, Hrec1.
  (* the second step: the update it triggers changes nothing *)
  assert (timers (host w1) !! h1 =
            Some (get (getDuration (node w0)) "enter", FlowTo ENTERED)) as Hh1.
  { rewrite Ht1. apply lookup_singleton_eq. }
  pose proof E2 as C2. rewrite (fire_pending _ _ _ _ Hh1) in C2.
  pose proof (call_inv _ _ _ C2) as (fv & Hfv & _ & _ & He2 & _).
  rewrite Hf2 in Hfv. subst fv. rewrite decide_True in He2 by done.
  pose proof (call_reports _ _ _ C2) as (now2 & Ha2 & Hr2 & Hrec2).
  simpl in Ha2, Hr2, Hrec2. rewrite Hp1, Hn0 in Ha2, Hr2, Hrec2.
  simpl in Ha2, Hr2, Hrec2. rewrite Hact in Ha2. injection Ha2 as <-.
  rewrite Hrec1, andb_false_r in Hr2, Hrec2. simpl in Hr2, Hrec2.
  rewrite app_nil_r in Hr2.
  assert (timers (host w2) = ∅) as Ht2.
  { unfold call, setFlowValue in C2.
    rewrite (componentDidUpdate_same _ true) in C2.
    - injection C2 as <-. simpl. rewrite Ht1. apply delete_singleton_eq.
    - simpl. by rewrite Hp1, Hn0.
    - simpl. by rewrite Hrec1, andb_false_r. }
  rewrite Hn0 in Ht1.
  repeat split; try done.
  - by rewrite Hn0.
  - by rewrite Hr2, Hr1.
Qed.

Lemma mount_enters_witness :
  ∃ w0 w1 h1 w2,
    mount delayed idle = Ok w0
    ∧ timers (host w0) = {[ 0 := (VNum 300, EnterStart) ]}
    ∧ fire 0 w0 = Ok w1
    ∧ fire h1 w1 = Ok w2
    ∧ flowValue (state (node w2)) = ENTERED
    ∧ reports (trace (host w2)) = [true].
Proof.
  destruct (mount_enters delayed)
    as (w0 & w1 & h1 & w2 & H0 & _ & Ht0 & H1 & _ & _ & H2 & Hf & _ & _ & _ & Hr);
    [reflexivity | reflexivity |].
  exists w0, w1, h1, w2. repeat split; done.
Defined.

(** ** Roots *)

(** X14. A node is a root when its [root] prop says so, or, the prop
    left out, when it has no parent context.  A root is activated as its
    [activate] prop says, and activated when that is left out; neither a
    parent context it may sit under nor [merge] plays any part. *)
Theorem root_ignores_parent (p : Props) :
  (root p = Some true ∨ (root p = None ∧ parentEnergyContext p = None)) →
  isRoot p = true
  ∧ isActivated p = Ok (default true (activate p)).
Proof.
  intros H.
  assert (isRoot p = true) as Hr.
  { unfold isRoot. destruct H as [-> | [-> ->]]; reflexivity. }
  split; [exact Hr|].
  unfold isActivated. rewrite Hr. by destruct (activate p).
Qed.

Lemma root_ignores_parent_witness :
  isActivated (forced_root (getEnergyInterface EXITED) None) = Ok true
  ∧ isActivated (forced_root (getEnergyInterface ENTERED) (Some false))
    = Ok false.
Proof.
  split.
  - apply (root_ignores_parent (forced_root (getEnergyInterface EXITED) None)).
    left. reflexivity.
  - apply (root_ignores_parent
             (forced_root (getEnergyInterface ENTERED) (Some false))).
    left. reflexivity.
Defined.

(** ** Deactivation *)

(** X15. When a node that is ENTERING or ENTERED and has recorded itself
    activated is re-rendered, animated, with props under which it is not
    activated, the update records that, tells the callback [false] if one
    is supplied, and replaces whatever timer was pending by the first
    step of the exit, due after 0; the exit then runs through EXITING,
    for [getDurationOut], to EXITED. *)
Theorem deactivation_exits (w : World) (q : Props) :
  flowValue (state (node w)) = ENTERING ∨ flowValue (state (node w)) = ENTERED →
  single_slot w →
  activated (node w) = true →
  isAnimate q = true → isActivated q = Ok false →
  ∃ w0 h w1 h1 w2,
    step (Update q) w = Ok w0
    ∧ activated (node w0) = false
    ∧ reports (trace (host w0)) =
        reports (trace (host w)) ++ (if onActivate q then [false] else [])
    ∧ timers (host w0) = {[ h := (VNum 0, ExitStart) ]}
    ∧ fire h w0 = Ok w1
    ∧ flowValue (state (node w1)) = EXITING
    ∧ timers (host w1) = {[ h1 := (getDurationOut (node w0), FlowTo EXITED) ]}
    ∧ fire h1 w1 = Ok w2
    ∧ flowValue (state (node w2)) = EXITED
    ∧ hasExited (node w2) = true.
Proof.
  intros Hf Hslot Hrec Hanim Hact.
  set (W := announced false (on_node (set_props q) w)).
  assert (node W = set_activated false (set_props q (node w))) as HnW.
  { unfold W, announced. simpl. by destruct (onActivate q). }
  assert (timers (host W) = timers (host w)) as HtW.
  { unfold W, announced. simpl. by destruct (onActivate q). }
  assert (reports (trace (host W)) =
            reports (trace (host w)) ++ (if onActivate q then [false] else []))
    as HrW.
  { unfold W, announced. simpl. destruct (onActivate q); simpl.
    - by rewrite reports_app.
    - by rewrite app_nil_r. }
  assert (single_slot W) as HsW.
  { revert Hslot. apply single_slot_same; [by rewrite HnW | by rewrite HtW]. }
  assert (step (Update q) w = Ok (exit W)) as Hstep.
  { unfold step. rewrite componentDidUpdate_unfold. simpl.
    rewrite Hact, Hanim, Hrec. done. }
  assert (exit W = schedule (VNum 0) ExitStart W) as Hexit.
  { unfold exit. rewrite HnW. simpl.
    apply decide_False. destruct Hf as [-> | ->]; intros [|]; discriminate. }
  rewrite Hexit in Hstep.
  set (w0 := schedule (VNum 0) ExitStart W) in *.
  assert (node w0 = set_scheduleTimeout (Some (nextTimer (host W))) (node W))
    as Hn0 by apply schedule_node.
  assert (timers (host w0) = {[ nextTimer (host W) := (VNum 0, ExitStart) ]})
    as Ht0 by by apply schedule_single.
  assert (reports (trace (host w0)) = reports (trace (host W))) as Hr0.
  { unfold w0. by rewrite schedule_trace, reports_app, app_nil_r. }
  assert (single_slot w0) as Hs0 by by apply single_slot_schedule.
  clearbody w0.
  destruct (exit_completes w0 (nextTimer (host W)) (VNum 0) false)
    as (w1 & h1 & E1 & Hf1 & _ & _ & Ht1 & w2 & E2 & Hf2 & Hx2 & _).
  - by rewrite Hn0, HnW.
  - exact Hs0.
  - rewrite Ht0. apply lookup_singleton_eq.
  - exists w0, (nextTimer (host W)), w1, h1, w2.
    repeat split; try done.
    + by rewrite Hn0, HnW.
    + by rewrite Hr0, HrW.
Qed.

Lemma deactivation_exits_witness :
  ∃ w0 h w1 h1 w2,
    step (Update (root_with None (Some false))) entering_world = Ok w0
    ∧ timers (host entering_world) = {[ 1 := (VNum 200, FlowTo ENTERED) ]}
    ∧ timers (host w0) = {[ h := (VNum 0, ExitStart) ]}
    ∧ fire h w0 = Ok w1
    ∧ fire h1 w1 = Ok w2
    ∧ flowValue (state (node w2)) = EXITED.
Proof.
  assert (single_slot entering_world) as Hs.
  { apply (bool_decide_unpack _). by vm_compute. }
  destruct (deactivation_exits entering_world (root_with None (Some false)))
    as (w0 & h & w1 & h1 & w2 & H0 & _ & _ & Ht0 & H1 & _ & _ & H2 & Hf & _);
    [by left | exact Hs | reflexivity | reflexivity | reflexivity |].
  exists w0, h, w1, h1, w2. repeat split; done.
Defined.
